(** * Verification of the Azure storage source, the collection yield-restore
      callable and the optimizer phase manager interface.

    Three units of the repository are embedded here:
    - [Azure]: third_party/wiredtiger/ext/storage_sources/azure_store/azure_storage_source.cpp
    - [YieldRestore]: mongo/db/catalog/collection_yield_restore.cpp
    - [Optimizer]: mongo/db/query/optimizer/opt_phase_manager.h

    Pointers are addresses into finite maps, C integers are [Z] with their
    wrap-around written out, writes to std::cout / std::cerr are returned as
    a list of lines. *)

From Stdlib Require Import ZArith Lia Bool Ascii.
From stdpp Require Import base option list gmap strings pretty.

Local Open Scope string_scope.
Local Open Scope Z_scope.

(* ===================================================================== *)
(** * Part 1: azure_storage_source.cpp *)
(* ===================================================================== *)
Module Azure.

(** Addresses of heap objects ([azure_file_system *], [azure_file_handle *]). *)
Abbreviation addr := nat (only parsing).

(** What the extension reads from headers and libraries that are not part of
    this file: the errno values and WiredTiger's open flags and file types (C
    integers), the [azure_connection] class, the native WiredTiger file system
    reached through [wt_fs], the extension API and std::filesystem.  They are
    parameters of the development. *)
Class Platform := {
  (* errno.h, wiredtiger.h *)
  EINVAL : Z;
  ENOENT : Z;
  ENOMEM : Z;
  ENOTSUP : Z;
  WT_NOTFOUND : Z;
  WT_FS_OPEN_CREATE : Z;
  WT_FS_OPEN_READONLY : Z;
  WT_FS_OPEN_FILE_TYPE_DATA : Z;
  WT_FS_OPEN_FILE_TYPE_REGULAR : Z;
  (* azure_connection.h: the connection object and the methods used here.
     The constructor yields the connection or the text of the
     std::runtime_error it throws; [object_exists] yields (return code,
     exists, size); [put_object] yields its return code and the connection
     after the request. *)
  azure_connection : Type;
  new_azure_connection : string -> string -> azure_connection + string;
  object_exists : azure_connection -> string -> Z * bool * Z;
  put_object : azure_connection -> string -> string -> Z * azure_connection;
  (* the native WT_FILE_SYSTEM and its fs_exist: (return code, exists) *)
  WT_FILE_SYSTEM_native : Type;
  native_fs_exist : WT_FILE_SYSTEM_native -> string -> Z * bool;
  (* std::filesystem::exists and std::filesystem::canonical *)
  filesystem_exists : string -> bool;
  filesystem_canonical : string -> string;
  (* WT_EXTENSION_API: config_get_string on key prefix gives (return code,
     value); file_system_get gives (return code, native file system);
     connection->get_home *)
  config_get_string : string -> string -> Z * string;
  file_system_get : Z * WT_FILE_SYSTEM_native;
  get_home : string;
}.

(** The static functions of the file that are stored in function tables. *)
Inductive azure_function :=
  | fn_azure_object_list
  | fn_azure_object_list_single
  | fn_azure_object_list_free
  | fn_azure_file_system_terminate
  | fn_azure_file_system_exists
  | fn_azure_file_open
  | fn_azure_remove
  | fn_azure_rename
  | fn_azure_object_size
  | fn_azure_file_close
  | fn_azure_file_lock
  | fn_azure_file_read
  | fn_azure_file_size.

(** [WT_FILE_SYSTEM]: the slots the file assigns; [None] is a null pointer. *)
Record WT_FILE_SYSTEM := {
  fs_directory_list : option azure_function;
  fs_directory_list_single : option azure_function;
  fs_directory_list_free : option azure_function;
  fs_terminate : option azure_function;
  fs_exist : option azure_function;
  fs_open_file : option azure_function;
  fs_remove : option azure_function;
  fs_rename : option azure_function;
  fs_size : option azure_function;
}.

(** [WT_FILE_HANDLE]: the slots the file assigns. *)
Record WT_FILE_HANDLE := {
  fh_close : option azure_function;
  fh_advise : option azure_function;
  fh_extend : option azure_function;
  fh_extend_nolock : option azure_function;
  fh_lock : option azure_function;
  fh_map : option azure_function;
  fh_map_discard : option azure_function;
  fh_unmap : option azure_function;
  fh_read : option azure_function;
  fh_size : option azure_function;
  fh_sync : option azure_function;
  fh_sync_nowait : option azure_function;
  fh_truncate : option azure_function;
  fh_write : option azure_function;
  fh_name_dup : string;
}.

(** Lines written to the two standard streams. *)
Inductive stream := Cout | Cerr.
Definition log_line : Type := stream * string.

(** [uint32_t] arithmetic on the reference counts. *)
Definition uint32_incr (n : Z) : Z := (n + 1) mod 2 ^ 32.
Definition uint32_decr (n : Z) : Z := (n - 1) mod 2 ^ 32.

Section Model.
Context `{P : Platform}.

(** struct azure_file_handle *)
Record azure_file_handle := {
  fh : WT_FILE_HANDLE;
  fh_fs : addr;
  name : string;
  reference_count : Z;
}.

(** struct azure_file_system; [azure_conn] is a unique_ptr, [None] when empty. *)
Record azure_file_system := {
  fs : WT_FILE_SYSTEM;
  wt_fs : WT_FILE_SYSTEM_native;
  azure_fh : list addr;
  azure_conn : option azure_connection;
  home_dir : string;
}.

(** struct azure_store together with the objects reachable from it: the file
    systems and file handles allocated so far, by address.  [heap_exhausted]
    tells whether [new] throws std::bad_alloc. *)
Record azure_store := {
  azure_fs : list addr;
  store_reference_count : Z;
  file_systems : gmap addr azure_file_system;
  file_handles : gmap addr azure_file_handle;
  heap_exhausted : bool;
}.

(** What a call hands back: the int it returns, the store afterwards, what
    it wrote through its out-parameter and the lines logged. *)
Record result (A : Type) := Result {
  ret : Z;
  post : azure_store;
  out : A;
  logged : list log_line;
}.
Global Arguments Result {A} _ _ _ _.
Global Arguments ret {A} _.
Global Arguments post {A} _.
Global Arguments out {A} _.
Global Arguments logged {A} _.

Definition set_file_systems (s : azure_store) (m : gmap addr azure_file_system) : azure_store :=
  {| azure_fs := azure_fs s; store_reference_count := store_reference_count s;
     file_systems := m; file_handles := file_handles s;
     heap_exhausted := heap_exhausted s |}.

Definition set_file_handles (s : azure_store) (m : gmap addr azure_file_handle) : azure_store :=
  {| azure_fs := azure_fs s; store_reference_count := store_reference_count s;
     file_systems := file_systems s; file_handles := m;
     heap_exhausted := heap_exhausted s |}.

Definition set_azure_fs (s : azure_store) (l : list addr) : azure_store :=
  {| azure_fs := l; store_reference_count := store_reference_count s;
     file_systems := file_systems s; file_handles := file_handles s;
     heap_exhausted := heap_exhausted s |}.

Definition set_reference_count (h : azure_file_handle) (n : Z) : azure_file_handle :=
  {| fh := fh h; fh_fs := fh_fs h; name := name h; reference_count := n |}.

Definition set_azure_fh (a : azure_file_system) (l : list addr) : azure_file_system :=
  {| fs := fs a; wt_fs := wt_fs a; azure_fh := l; azure_conn := azure_conn a;
     home_dir := home_dir a |}.

Definition set_azure_conn (a : azure_file_system) (c : option azure_connection) : azure_file_system :=
  {| fs := fs a; wt_fs := wt_fs a; azure_fh := azure_fh a; azure_conn := c;
     home_dir := home_dir a |}.


(** ** azure_customize_file_system (lines 102-171) *)

Definition azure_file_system_table : WT_FILE_SYSTEM :=
  {| fs_directory_list := Some fn_azure_object_list;
     fs_directory_list_single := Some fn_azure_object_list_single;
     fs_directory_list_free := Some fn_azure_object_list_free;
     fs_terminate := Some fn_azure_file_system_terminate;
     fs_exist := Some fn_azure_file_system_exists;
     fs_open_file := Some fn_azure_file_open;
     fs_remove := Some fn_azure_remove;
     fs_rename := Some fn_azure_rename;
     fs_size := Some fn_azure_object_size |}.

Definition azure_customize_file_system (s : azure_store) (bucket : option string)
    (auth_token config : string) : result (option addr) :=
  match bucket with
  | None | Some "" =>
      Result EINVAL s None [(Cerr, "azure_customize_file_system: Bucket not specified.")]
  | Some bucket =>
      let '(ret1, prefix_value) := config_get_string config "prefix" in
      let obj_prefix := if ret1 =? 0 then prefix_value else "" in
      if negb (ret1 =? 0) && negb (ret1 =? WT_NOTFOUND) then
        Result ret1 s None
          [(Cerr, "azure_customize_file_system: error parsing config for object prefix.")]
      else
        let '(ret2, wt_file_system) := file_system_get in
        if negb (ret2 =? 0) then Result ret2 s None []
        else if heap_exhausted s then
          Result ENOMEM s None [(Cerr, "azure_customize_file_system: std::bad_alloc")]
        else
          match new_azure_connection bucket obj_prefix with
          | inr what =>
              (* the file system allocated above is left unreachable *)
              Result ENOENT s None [(Cerr, "azure_customize_file_system: " +:+ what)]
          | inl conn =>
              let a := fresh (dom (file_systems s)) in
              let afs := {| fs := azure_file_system_table; wt_fs := wt_file_system;
                            azure_fh := []; azure_conn := Some conn;
                            home_dir := get_home |} in
              Result ret2
                (set_azure_fs (set_file_systems s (<[a := afs]> (file_systems s)))
                              (azure_fs s ++ [a]))
                (Some a) []
          end
  end.

(** ** azure_flush (lines 187-228) *)

Definition azure_flush (s : azure_store) (file_system : addr)
    (source object config : string) : option (result unit) :=
  afs ← file_systems s !! file_system;
  if negb (filesystem_exists source) then
    Some (Result ENOENT s ()
            [(Cerr, "azure_flush: Object: " +:+ object +:+ " does not exist.")])
  else
    let '(ret0, exists_native) := native_fs_exist (wt_fs afs) (filesystem_canonical source) in
    if negb (ret0 =? 0) then
      Some (Result ret0 s ()
              [(Cerr, "azure_flush: Failed to check for the existence of " +:+ source
                        +:+ " on the native filesystem.")])
    else if negb exists_native then
      Some (Result ENOENT s () [(Cerr, "azure_flush: " +:+ object +:+ " No such file.")])
    else
      conn ← azure_conn afs;
      let '(put_ret, conn') := put_object conn object (filesystem_canonical source) in
      Some (Result ret0
              (set_file_systems s
                 (<[file_system := set_azure_conn afs (Some conn')]> (file_systems s)))
              ()
              [(Cout, "azure_flush: Uploading object: " +:+ object
                        +:+ " into bucket using put_object.");
               if negb (put_ret =? 0)
               then (Cerr, "azure_flush: Put object request to Azure failed.")
               else (Cout, "azure_flush: Uploaded object to Azure.")]).

(** ** azure_file_system_exists (lines 395-424) and azure_flush_finish (230-246) *)

Definition azure_file_system_exists (s : azure_store) (file_system : addr)
    (name : string) : option (result bool) :=
  afs ← file_systems s !! file_system;
  conn ← azure_conn afs;
  let '(ret0, existp, _) := object_exists conn name in
  let checking := (Cout, "azure_file_system_exists: Checking object: " +:+ name
                           +:+ " exists in Azure.") in
  if negb (ret0 =? 0) then
    Some (Result ret0 s existp
            [checking;
             (Cerr, "azure_file_system_exists: Error with searching for object: " +:+ name)])
  else
    Some (Result 0 s existp
            [checking;
             if negb existp
             then (Cout, "azure_file_system_exists: Object: " +:+ name
                           +:+ " does not exist in Azure.")
             else (Cout, "azure_file_system_exists: Object: " +:+ name
                           +:+ " exists in Azure.")]).

Definition azure_flush_finish (s : azure_store) (file_system : addr)
    (source object config : string) : option (result unit) :=
  r ← azure_file_system_exists s file_system object;
  Some (Result (ret r) (post r) ()
          ((Cout, "azure_flush_finish: Checking object: " +:+ object +:+ " exists in Azure.")
             :: logged r)).

(** ** azure_remove (lines 426-437) and azure_rename (lines 439-452) *)

Definition azure_remove (s : azure_store) (file_system : addr) (name : string)
    (flags : Z) : result unit :=
  Result ENOTSUP s ()
    [(Cerr, "azure_remove: Object: " +:+ name +:+ ": remove of file not supported.")].

Definition azure_rename (s : azure_store) (file_system : addr) (from to : string)
    (flags : Z) : result unit :=
  Result ENOTSUP s ()
    [(Cerr, "azure_rename: Object: " +:+ from +:+ ": rename of file not supported.")].

(** ** azure_object_size (lines 454-476) *)

(** The assignment [*sizep = size] (lines 473 and 638) stores the 64-bit
    unsigned [size_t] into the signed 64-bit [wt_off_t]: the same 64 bits,
    read as a two's complement number. *)
Definition wt_off_t_of_size_t (size : Z) : Z :=
  let bits := size mod 2 ^ 64 in
  if bits <? 2 ^ 63 then bits else bits - 2 ^ 64.

Definition azure_object_size (s : azure_store) (file_system : addr)
    (name : string) : option (result Z) :=
  afs ← file_systems s !! file_system;
  conn ← azure_conn afs;
  let '(ret0, _, size) := object_exists conn name in
  if negb (ret0 =? 0) then
    Some (Result ret0 s 0
            [(Cerr, "azure_object_size: object_exists request to Azure failed.")])
  else Some (Result 0 s (wt_off_t_of_size_t size) []).

(** ** azure_file_open (lines 478-564) *)

(** The table of a new read-only file handle (lines 538-553). *)
Definition azure_file_handle_table (name : string) : WT_FILE_HANDLE :=
  {| fh_close := Some fn_azure_file_close;
     fh_advise := None;
     fh_extend := None;
     fh_extend_nolock := None;
     fh_lock := Some fn_azure_file_lock;
     fh_map := None;
     fh_map_discard := None;
     fh_unmap := None;
     fh_read := Some fn_azure_file_read;
     fh_size := Some fn_azure_file_size;
     fh_sync := None;
     fh_sync_nowait := None;
     fh_truncate := None;
     fh_write := None;
     fh_name_dup := name |}.

(** std::find_if over [azure_fh] with the predicate
    [fh->name.compare(name) == 0]: the first listed handle of that name.  An
    address without an object is passed over; the lists this file builds hold
    none (see [handles_wf]). *)
Fixpoint find_if_name (m : gmap addr azure_file_handle) (n : string)
    (l : list addr) : option addr :=
  match l with
  | [] => None
  | a :: l' =>
      match m !! a with
      | Some h => if String.eqb (name h) n then Some a else find_if_name m n l'
      | None => find_if_name m n l'
      end
  end.

Definition azure_file_open (s : azure_store) (file_system : addr) (n : string)
    (file_type flags : Z) : option (result (option addr)) :=
  if (Z.land flags WT_FS_OPEN_READONLY =? 0) || negb (Z.land flags WT_FS_OPEN_CREATE =? 0) then
    Some (Result EINVAL s None [(Cerr, "azure_file_open: read-only access required.")])
  else if negb (file_type =? WT_FS_OPEN_FILE_TYPE_DATA)
          && negb (file_type =? WT_FS_OPEN_FILE_TYPE_REGULAR) then
    Some (Result EINVAL s None
            [(Cerr, "azure_file_open: only data file and regular types supported.")])
  else
    afs ← file_systems s !! file_system;
    conn ← azure_conn afs;
    let '(ret0, exists_, _) := object_exists conn n in
    if negb (ret0 =? 0) then
      Some (Result ret0 s None
              [(Cerr, "azure_file_open: object_exists request to Azure failed.")])
    else if negb exists_ then
      Some (Result EINVAL s None
              [(Cerr, "azure_file_open: no such file named " +:+ n +:+ ".")])
    else
      match find_if_name (file_handles s) n (azure_fh afs) with
      | Some a =>
          (* Active file handle for file exists, increment reference count. *)
          h ← file_handles s !! a;
          Some (Result 0
                  (set_file_handles s
                     (<[a := set_reference_count h (uint32_incr (reference_count h))]>
                        (file_handles s)))
                  (Some a) [])
      | None =>
          (* No active file handle, create a new file handle. *)
          if heap_exhausted s then
            Some (Result ENOMEM s None [(Cerr, "azure_file_open: std::bad_alloc")])
          else
            let a := fresh (dom (file_handles s)) in
            let h := {| fh := azure_file_handle_table n; fh_fs := file_system;
                        name := n; reference_count := 1 |} in
            Some (Result 0
                    (set_file_systems
                       (set_file_handles s (<[a := h]> (file_handles s)))
                       (<[file_system := set_azure_fh afs (azure_fh afs ++ [a])]>
                          (file_systems s)))
                    (Some a) [])
      end.

(** ** azure_file_close (lines 566-589) *)

(** The erase-remove idiom: every occurrence of the pointer leaves the list. *)
Definition erase_remove (a : addr) (l : list addr) : list addr :=
  filter (λ b, b ≠ a) l.

Definition azure_file_close (s : azure_store) (file_handle : addr) : option (result unit) :=
  h ← file_handles s !! file_handle;
  let rc := uint32_decr (reference_count h) in
  let s1 := set_file_handles s (<[file_handle := set_reference_count h rc]> (file_handles s)) in
  if negb (rc =? 0) then Some (Result 0 s1 () [])
  else
    afs ← file_systems s1 !! fh_fs h;
    Some (Result 0
            (set_file_systems s1
               (<[fh_fs h := set_azure_fh afs (erase_remove file_handle (azure_fh afs))]>
                  (file_systems s1)))
            () []).

(** ** azure_file_lock (lines 591-602) and azure_file_size (lines 623-641) *)

Definition azure_file_lock (s : azure_store) (file_handle : addr) (lock : bool) : result unit :=
  Result 0 s () [].

Definition azure_file_size (s : azure_store) (file_handle : addr) : option (result Z) :=
  h ← file_handles s !! file_handle;
  afs ← file_systems s !! fh_fs h;
  conn ← azure_conn afs;
  let '(ret0, _, size) := object_exists conn (name h) in
  if negb (ret0 =? 0) then
    Some (Result ret0 s 0 [(Cerr, "azure_file_size: object_exists request to Azure failed.")])
  else Some (Result 0 s (wt_off_t_of_size_t size) []).

(** ** The store after wiredtiger_extension_init (lines 643-669) *)

Definition initial_store : azure_store :=
  {| azure_fs := []; store_reference_count := 1; file_systems := ∅;
     file_handles := ∅; heap_exhausted := false |}.

(** ** Well-formedness of the handle lists *)

(** The names of the handles a list points to. *)
Definition handle_names (m : gmap addr azure_file_handle) (l : list addr) : list (option string) :=
  (λ a, name <$> m !! a) <$> l.

(** Every file system lists live handles only, and no two listed handles of
    one file system carry the same name. *)
Definition handles_wf (s : azure_store) : Prop :=
  ∀ p afs, file_systems s !! p = Some afs →
    Forall (λ a, is_Some (file_handles s !! a)) (azure_fh afs)
    ∧ NoDup (handle_names (file_handles s) (azure_fh afs)).


(** ** The reference count of the store and the end of a file system *)

Definition set_store_reference_count (s : azure_store) (n : Z) : azure_store :=
  {| azure_fs := azure_fs s; store_reference_count := n;
     file_systems := file_systems s; file_handles := file_handles s;
     heap_exhausted := heap_exhausted s |}.

(** ** azure_add_reference (lines 173-185) *)
Definition azure_add_reference (s : azure_store) : result unit :=
  if (store_reference_count s =? 0) || (uint32_incr (store_reference_count s) =? 0) then
    Result EINVAL s () [(Cerr, "azure_add_reference: missing reference or overflow.")]
  else
    Result 0 (set_store_reference_count s (uint32_incr (store_reference_count s))) () [].

(** ** azure_file_system_terminate (lines 372-393): the file system leaves
    the active list, its connection is reset and its memory freed. *)
Definition azure_file_system_terminate (s : azure_store) (file_system : addr)
    : option (result unit) :=
  afs ← file_systems s !! file_system;
  Some (Result 0
          (set_file_systems (set_azure_fs s (erase_remove file_system (azure_fs s)))
             (delete file_system (file_systems s)))
          () []).

(** The loop of [azure_terminate] (lines 262-265): terminate the front of the
    active list until the list is empty.  [rounds] bounds the iterations;
    every round shortens the list, so its length is enough. *)
Fixpoint terminate_file_systems (rounds : nat) (s : azure_store) : option azure_store :=
  match azure_fs s with
  | [] => Some s
  | front :: _ =>
      match rounds with
      | O => None
      | S rounds' =>
          r ← azure_file_system_terminate s front;
          terminate_file_systems rounds' (post r)
      end
  end.

(** ** azure_terminate (lines 248-270): [out] tells whether the store was
    deleted; [post] is then the store as it was when deleted. *)
Definition azure_terminate (s : azure_store) : option (result bool) :=
  let s1 := set_store_reference_count s (uint32_decr (store_reference_count s)) in
  if negb (store_reference_count s1 =? 0) then Some (Result 0 s1 false [])
  else
    s2 ← terminate_file_systems (length (azure_fs s1)) s1;
    Some (Result 0 s2 true []).

(** ** The stores the operations lead to *)

(** The stores the operations above lead to from [initial_store].  The other
    functions modelled leave the store as it is; whether memory is exhausted
    may change at any time. *)
Inductive reachable : azure_store → Prop :=
  | reachable_init : reachable initial_store
  | reachable_customize s bucket auth_token config :
      reachable s →
      reachable (post (azure_customize_file_system s bucket auth_token config))
  | reachable_flush s p source object config r :
      reachable s → azure_flush s p source object config = Some r → reachable (post r)
  | reachable_open s p n file_type flags r :
      reachable s → azure_file_open s p n file_type flags = Some r → reachable (post r)
  | reachable_close s a r :
      reachable s → azure_file_close s a = Some r → reachable (post r)
  | reachable_memory s b :
      reachable s →
      reachable {| azure_fs := azure_fs s; store_reference_count := store_reference_count s;
                   file_systems := file_systems s; file_handles := file_handles s;
                   heap_exhausted := b |}.


(** What a successful existence request tells about object [n] of the
    connection of file system [p]. *)
Definition object_reported (s : azure_store) (p : addr) (n : string) (b : bool) : Prop :=
  ∃ afs conn size, file_systems s !! p = Some afs ∧ azure_conn afs = Some conn
                   ∧ object_exists conn n = (0, b, size).

End Model.

(** ** Results about the storage source *)
Section Results.
Context `{P : Platform}.

Lemma azure_file_open_flags s p n file_type flags :
  Z.land flags WT_FS_OPEN_READONLY = 0 ∨ Z.land flags WT_FS_OPEN_CREATE ≠ 0 →
  azure_file_open s p n file_type flags
  = Some (Result EINVAL s None [(Cerr, "azure_file_open: read-only access required.")]).
Proof.
  intros Hflags. unfold azure_file_open.
  destruct Hflags as [->%Z.eqb_eq | Hc%Z.eqb_neq].
  - reflexivity.
  - rewrite Hc, orb_true_r. reflexivity.
Qed.

Lemma azure_file_open_type s p n file_type flags :
  Z.land flags WT_FS_OPEN_READONLY ≠ 0 → Z.land flags WT_FS_OPEN_CREATE = 0 →
  file_type ≠ WT_FS_OPEN_FILE_TYPE_DATA → file_type ≠ WT_FS_OPEN_FILE_TYPE_REGULAR →
  azure_file_open s p n file_type flags
  = Some (Result EINVAL s None
            [(Cerr, "azure_file_open: only data file and regular types supported.")]).
Proof.
  intros Hr%Z.eqb_neq Hc%Z.eqb_eq Hd%Z.eqb_neq Hg%Z.eqb_neq.
  unfold azure_file_open. rewrite Hr, Hc, Hd, Hg. reflexivity.
Qed.

(** Past the two argument checks the function is its body from line 499 on. *)
Lemma azure_file_open_checked s p n file_type flags :
  Z.land flags WT_FS_OPEN_READONLY ≠ 0 → Z.land flags WT_FS_OPEN_CREATE = 0 →
  file_type = WT_FS_OPEN_FILE_TYPE_DATA ∨ file_type = WT_FS_OPEN_FILE_TYPE_REGULAR →
  ∀ afs conn, file_systems s !! p = Some afs → azure_conn afs = Some conn →
  azure_file_open s p n file_type flags =
    let '(ret0, exists_, _) := object_exists conn n in
    if negb (ret0 =? 0) then
      Some (Result ret0 s None
              [(Cerr, "azure_file_open: object_exists request to Azure failed.")])
    else if negb exists_ then
      Some (Result EINVAL s None
              [(Cerr, "azure_file_open: no such file named " +:+ n +:+ ".")])
    else
      match find_if_name (file_handles s) n (azure_fh afs) with
      | Some a =>
          h ← file_handles s !! a;
          Some (Result 0
                  (set_file_handles s
                     (<[a := set_reference_count h (uint32_incr (reference_count h))]>
                        (file_handles s)))
                  (Some a) [])
      | None =>
          if heap_exhausted s then
            Some (Result ENOMEM s None [(Cerr, "azure_file_open: std::bad_alloc")])
          else
            let a := fresh (dom (file_handles s)) in
            let h := {| fh := azure_file_handle_table n; fh_fs := p;
                        name := n; reference_count := 1 |} in
            Some (Result 0
                    (set_file_systems
                       (set_file_handles s (<[a := h]> (file_handles s)))
                       (<[p := set_azure_fh afs (azure_fh afs ++ [a])]> (file_systems s)))
                    (Some a) [])
      end.
Proof.
  intros Hr%Z.eqb_neq Hc%Z.eqb_eq Ht afs conn Hp Hconn.
  unfold azure_file_open. rewrite Hr, Hc. simpl.
  assert ((negb (file_type =? WT_FS_OPEN_FILE_TYPE_DATA)
           && negb (file_type =? WT_FS_OPEN_FILE_TYPE_REGULAR)) = false) as ->.
  { destruct Ht as [-> | ->]; rewrite Z.eqb_refl; simpl; [reflexivity | apply andb_false_r]. }
  rewrite Hp. simpl. rewrite Hconn. reflexivity.
Qed.

(** A handle comes out of [azure_file_open] only past every check. *)
Lemma azure_file_open_handle_inv s p n file_type flags r a :
  azure_file_open s p n file_type flags = Some r → out r = Some a →
  Z.land flags WT_FS_OPEN_READONLY ≠ 0 ∧ Z.land flags WT_FS_OPEN_CREATE = 0
  ∧ (file_type = WT_FS_OPEN_FILE_TYPE_DATA ∨ file_type = WT_FS_OPEN_FILE_TYPE_REGULAR)
  ∧ object_reported s p n true ∧ ret r = 0.
Proof.
  unfold azure_file_open. intros Hopen Hout.
  destruct (Z.land flags WT_FS_OPEN_READONLY =? 0) eqn:Hr; simpl in Hopen.
  { inversion Hopen; subst; discriminate. }
  destruct (Z.land flags WT_FS_OPEN_CREATE =? 0) eqn:Hc; simpl in Hopen;
    [| inversion Hopen; subst; discriminate].
  destruct (file_type =? WT_FS_OPEN_FILE_TYPE_DATA) eqn:Hd;
    destruct (file_type =? WT_FS_OPEN_FILE_TYPE_REGULAR) eqn:Hg; simpl in Hopen;
    try (inversion Hopen; subst; discriminate).
  all: apply Z.eqb_neq in Hr; apply Z.eqb_eq in Hc.
  all: destruct (file_systems s !! p) as [afs|] eqn:Hp; simpl in Hopen; [| discriminate].
  all: destruct (azure_conn afs) as [conn|] eqn:Hconn; simpl in Hopen; [| discriminate].
  all: destruct (object_exists conn n) as [[ret0 ex] size] eqn:Hex.
  all: destruct (ret0 =? 0) eqn:Hret; simpl in Hopen;
         [| inversion Hopen; subst; discriminate].
  all: destruct ex; simpl in Hopen; [| inversion Hopen; subst; discriminate].
  all: apply Z.eqb_eq in Hret; subst ret0.
  all: assert (ret r = 0) as Hzero.
  all: try (destruct (find_if_name (file_handles s) n (azure_fh afs)) as [a'|];
            [ destruct (file_handles s !! a'); simpl in Hopen; [| discriminate]
            | destruct (heap_exhausted s) ];
            inversion Hopen; subst; simpl in *; congruence).
  all: repeat split; auto.
  all: try (left; apply Z.eqb_eq; assumption).
  all: try (right; apply Z.eqb_eq; assumption).
  all: exists afs, conn, size; auto.
Qed.

(** *** The search of [azure_file_open] *)

Lemma find_if_name_Some m n l a :
  find_if_name m n l = Some a → a ∈ l ∧ ∃ h, m !! a = Some h ∧ name h = n.
Proof.
  induction l as [| b l IH]; simpl; [discriminate |].
  destruct (m !! b) as [h |] eqn:Hb.
  - destruct (String.eqb (name h) n) eqn:Hn.
    + intros [= ->]. apply String.eqb_eq in Hn. split; [left | eauto].
    + intros [? ?]%IH. split; [right |]; assumption.
  - intros [? ?]%IH. split; [right |]; assumption.
Qed.

Lemma find_if_name_None m n l :
  find_if_name m n l = None → Some n ∉ handle_names m l.
Proof.
  unfold handle_names.
  induction l as [| b l IH]; simpl; [intros _; apply not_elem_of_nil |].
  destruct (m !! b) as [h |] eqn:Hb; simpl.
  - destruct (String.eqb (name h) n) eqn:Hn; [discriminate |].
    apply String.eqb_neq in Hn. intros Hnone%IH.
    rewrite not_elem_of_cons. split; [congruence | assumption].
  - intros Hnone%IH. rewrite not_elem_of_cons. split; [discriminate | assumption].
Qed.


(** *** What the updates of the two operations do to the listed names *)

Lemma handle_names_recount m l a h rc :
  m !! a = Some h →
  handle_names (<[a := set_reference_count h rc]> m) l = handle_names m l.
Proof.
  intros Ha. unfold handle_names. apply list_fmap_ext. intros _ b _.
  destruct (decide (a = b)) as [<- | Hne].
  - rewrite lookup_insert_eq, Ha. reflexivity.
  - rewrite lookup_insert_ne by assumption. reflexivity.
Qed.

Lemma handle_names_new (m : gmap addr azure_file_handle) l a h :
  a ∉ l → handle_names (<[a := h]> m) l = handle_names m l.
Proof.
  intros Hnotin. unfold handle_names. apply list_fmap_ext. intros i b Hb.
  rewrite lookup_insert_ne; [reflexivity |].
  intros ->. apply Hnotin. eapply list_elem_of_lookup_2, Hb.
Qed.

Lemma fresh_not_listed (m : gmap addr azure_file_handle) (l : list addr) :
  Forall (λ a, is_Some (m !! a)) l → fresh (dom m) ∉ l.
Proof.
  intros Hall Hin. rewrite Forall_forall in Hall.
  apply (is_fresh (dom m)). apply elem_of_dom. auto.
Qed.


(** *** Preservation of [handles_wf] *)

Lemma handles_wf_initial : handles_wf initial_store.
Proof. intros p afs Hp. simpl in Hp. rewrite lookup_empty in Hp. discriminate. Qed.

Lemma handles_wf_recount s a h rc :
  handles_wf s → file_handles s !! a = Some h →
  handles_wf (set_file_handles s (<[a := set_reference_count h rc]> (file_handles s))).
Proof.
  intros Hwf Ha p afs Hp. simpl in *.
  destruct (Hwf p afs Hp) as [Hlive Hnd]. split.
  - eapply Forall_impl; [exact Hlive |]. intros b Hb. simpl in *.
    destruct (decide (a = b)) as [<- | Hne].
    + rewrite lookup_insert_eq. eauto.
    + rewrite lookup_insert_ne by assumption. assumption.
  - rewrite handle_names_recount by assumption. assumption.
Qed.

Lemma handles_wf_shrink s p afs afs' :
  handles_wf s → file_systems s !! p = Some afs →
  azure_fh afs' `sublist_of` azure_fh afs →
  handles_wf (set_file_systems s (<[p := afs']> (file_systems s))).
Proof.
  intros Hwf Hp Hsub q afs_q Hq. simpl in *.
  destruct (decide (p = q)) as [<- | Hne].
  - rewrite lookup_insert_eq in Hq. injection Hq as <-.
    destruct (Hwf p afs Hp) as [Hlive Hnd]. split.
    + rewrite Forall_forall in *. intros b Hb. apply Hlive.
      eapply elem_of_sublist; eassumption.
    + eapply sublist_NoDup; [exact Hnd |]. unfold handle_names.
      apply fmap_sublist. assumption.
  - rewrite lookup_insert_ne in Hq by assumption. exact (Hwf q afs_q Hq).
Qed.

Lemma handles_wf_new s p afs n :
  handles_wf s → file_systems s !! p = Some afs →
  find_if_name (file_handles s) n (azure_fh afs) = None →
  let a := fresh (dom (file_handles s)) in
  let h := {| fh := azure_file_handle_table n; fh_fs := p; name := n;
              reference_count := 1 |} in
  handles_wf (set_file_systems (set_file_handles s (<[a := h]> (file_handles s)))
                (<[p := set_azure_fh afs (azure_fh afs ++ [a])]> (file_systems s))).
Proof.
  intros Hwf Hp Hfind a h q afs_q Hq. simpl in *.
  assert (∀ l, Forall (λ b, is_Some (file_handles s !! b)) l →
               Forall (λ b, is_Some (<[a := h]> (file_handles s) !! b)) l) as Hkeep.
  { intros l Hl. eapply Forall_impl; [exact Hl |]. intros b Hb. simpl in *.
    destruct (decide (a = b)) as [<- | Hne].
    - rewrite lookup_insert_eq. eauto.
    - rewrite lookup_insert_ne by assumption. assumption. }
  destruct (decide (p = q)) as [<- | Hne].
  - rewrite lookup_insert_eq in Hq. injection Hq as <-. simpl.
    destruct (Hwf p afs Hp) as [Hlive Hnd]. split.
    + apply Forall_app. split; [auto |].
      constructor; [| constructor]. rewrite lookup_insert_eq. eauto.
    + unfold handle_names. rewrite fmap_app. simpl. rewrite lookup_insert_eq. simpl.
      fold (handle_names (<[a := h]> (file_handles s)) (azure_fh afs)).
      rewrite handle_names_new by (apply fresh_not_listed; assumption).
      apply NoDup_app. split; [assumption |]. split; [| apply NoDup_singleton].
      intros x Hx Hx'. apply list_elem_of_singleton in Hx'. subst x.
      exact (find_if_name_None _ _ _ Hfind Hx).
  - rewrite lookup_insert_ne in Hq by assumption.
    destruct (Hwf q afs_q Hq) as [Hlive Hnd]. split; [auto |].
    rewrite handle_names_new by (apply fresh_not_listed; assumption). assumption.
Qed.

(** The three ways [azure_file_open] ends: an error that leaves the store
    alone, a handle that was found, a handle that was created. *)
Lemma azure_file_open_cases s p n file_type flags r :
  azure_file_open s p n file_type flags = Some r →
  (post r = s ∧ out r = None)
  ∨ (∃ afs a h, file_systems s !! p = Some afs
       ∧ find_if_name (file_handles s) n (azure_fh afs) = Some a
       ∧ file_handles s !! a = Some h
       ∧ r = Result 0
               (set_file_handles s
                  (<[a := set_reference_count h (uint32_incr (reference_count h))]>
                     (file_handles s)))
               (Some a) [])
  ∨ (∃ afs, file_systems s !! p = Some afs
       ∧ find_if_name (file_handles s) n (azure_fh afs) = None
       ∧ r = Result 0
               (set_file_systems
                  (set_file_handles s
                     (<[fresh (dom (file_handles s)) :=
                          {| fh := azure_file_handle_table n; fh_fs := p; name := n;
                             reference_count := 1 |}]> (file_handles s)))
                  (<[p := set_azure_fh afs (azure_fh afs ++ [fresh (dom (file_handles s))])]>
                     (file_systems s)))
               (Some (fresh (dom (file_handles s)))) []).
Proof.
  unfold azure_file_open. intros Hopen.
  destruct (_ || _); [injection Hopen as <-; left; auto |].
  destruct (_ && _); [injection Hopen as <-; left; auto |].
  destruct (file_systems s !! p) as [afs |] eqn:Hp; simpl in Hopen; [| discriminate].
  destruct (azure_conn afs) as [conn |]; simpl in Hopen; [| discriminate].
  destruct (object_exists conn n) as [[ret0 ex] size].
  destruct (negb (ret0 =? 0)); [injection Hopen as <-; left; auto |].
  destruct (negb ex); [injection Hopen as <-; left; auto |].
  destruct (find_if_name (file_handles s) n (azure_fh afs)) as [a |] eqn:Hfind.
  - destruct (file_handles s !! a) as [h |] eqn:Ha; simpl in Hopen; [| discriminate].
    injection Hopen as <-. right. left. exists afs, a, h. auto.
  - destruct (heap_exhausted s); [injection Hopen as <-; left; auto |].
    injection Hopen as <-. right. right. exists afs. auto.
Qed.

Lemma azure_file_open_wf s p n file_type flags r :
  handles_wf s → azure_file_open s p n file_type flags = Some r → handles_wf (post r).
Proof.
  intros Hwf Hopen.
  destruct (azure_file_open_cases _ _ _ _ _ _ Hopen)
    as [[-> _] | [(afs & a & h & Hp & Hfind & Ha & ->) | (afs & Hp & Hfind & ->)]]; simpl.
  - assumption.
  - apply handles_wf_recount; assumption.
  - apply handles_wf_new; assumption.
Qed.


Lemma azure_file_close_wf s a r :
  handles_wf s → azure_file_close s a = Some r → handles_wf (post r).
Proof.
  intros Hwf. unfold azure_file_close.
  destruct (file_handles s !! a) as [h |] eqn:Ha; simpl; [| discriminate].
  pose proof (handles_wf_recount s a h (uint32_decr (reference_count h)) Hwf Ha) as Hwf1.
  destruct (negb _); [intros [= <-]; exact Hwf1 |].
  destruct (file_systems s !! fh_fs h) as [afs |] eqn:Hfs; simpl; [| discriminate].
  intros [= <-]. simpl.
  apply (handles_wf_shrink _ (fh_fs h) afs _ Hwf1); [exact Hfs |].
  simpl. apply sublist_filter.
Qed.


Lemma azure_customize_file_system_wf s bucket auth_token config :
  handles_wf s → handles_wf (post (azure_customize_file_system s bucket auth_token config)).
Proof.
  intros Hwf. unfold azure_customize_file_system.
  destruct bucket as [[| c b] |]; simpl; try assumption.
  destruct (config_get_string config "prefix") as [ret1 prefix_value].
  destruct (negb (ret1 =? 0) && negb (ret1 =? WT_NOTFOUND)); simpl; [assumption |].
  destruct file_system_get as [ret2 wt_file_system].
  destruct (negb (ret2 =? 0)); simpl; [assumption |].
  destruct (heap_exhausted s); simpl; [assumption |].
  destruct (new_azure_connection _ _) as [conn | what]; simpl; [| assumption].
  intros q afs_q Hq. simpl in *.
  destruct (decide (fresh (dom (file_systems s)) = q)) as [<- | Hne].
  - rewrite lookup_insert_eq in Hq. injection Hq as <-. simpl.
    split; [constructor | apply NoDup_nil_2].
  - rewrite lookup_insert_ne in Hq by assumption. exact (Hwf q afs_q Hq).
Qed.

Lemma azure_flush_wf s p source object config r :
  handles_wf s → azure_flush s p source object config = Some r → handles_wf (post r).
Proof.
  intros Hwf. unfold azure_flush.
  destruct (file_systems s !! p) as [afs |] eqn:Hp; simpl; [| discriminate].
  destruct (negb (filesystem_exists source)); [intros [= <-]; assumption |].
  destruct (native_fs_exist (wt_fs afs) (filesystem_canonical source)) as [ret0 exists_native].
  destruct (negb (ret0 =? 0)); [intros [= <-]; assumption |].
  destruct (negb exists_native); [intros [= <-]; assumption |].
  destruct (azure_conn afs) as [conn |]; simpl; [| discriminate].
  destruct (put_object conn object (filesystem_canonical source)) as [put_ret conn'].
  intros [= <-]. simpl.
  apply (handles_wf_shrink s p afs _ Hwf Hp). reflexivity.
Qed.

(** Every store the operations lead to has well-formed handle lists. *)
Lemma reachable_wf s : reachable s → handles_wf s.
Proof.
  induction 1 as [| s bucket auth_token config _ IH | s p source object config r _ IH Hflush
                  | s p n file_type flags r _ IH Hopen | s a r _ IH Hclose | s b _ IH].
  - apply handles_wf_initial.
  - apply azure_customize_file_system_wf. assumption.
  - eapply azure_flush_wf; eassumption.
  - eapply azure_file_open_wf; eassumption.
  - eapply azure_file_close_wf; eassumption.
  - exact IH.
Qed.







(** The connection of file system [p] after [azure_flush] is the one
    [put_object] left behind. *)
Lemma azure_flush_uploads s p afs conn source object config :
  file_systems s !! p = Some afs → azure_conn afs = Some conn →
  filesystem_exists source = true →
  native_fs_exist (wt_fs afs) (filesystem_canonical source) = (0, true) →
  azure_flush s p source object config =
    let put := put_object conn object (filesystem_canonical source) in
    Some (Result 0
            (set_file_systems s (<[p := set_azure_conn afs (Some put.2)]> (file_systems s)))
            ()
            [(Cout, "azure_flush: Uploading object: " +:+ object
                      +:+ " into bucket using put_object.");
             if negb (put.1 =? 0)
             then (Cerr, "azure_flush: Put object request to Azure failed.")
             else (Cout, "azure_flush: Uploaded object to Azure.")]).
Proof.
  intros Hp Hconn Hdisk Hnative. unfold azure_flush.
  rewrite Hp. simpl. rewrite Hdisk, Hnative. simpl. rewrite Hconn. simpl.
  destruct (put_object conn object (filesystem_canonical source)) as [put_ret conn'].
  reflexivity.
Qed.

(** C6: [azure_remove] and [azure_rename] return ENOTSUP for every input and
    leave the store as it was (they only write one line to std::cerr), while
    the function table installed by [azure_customize_file_system] and the
    table of every file handle provide list, open, read, size and exists. *)
Theorem azure_remove_rename_not_supported :
  ∀ (s : azure_store) (p : addr) (n from to : string) (flags : Z),
    ret (azure_remove s p n flags) = ENOTSUP
    ∧ post (azure_remove s p n flags) = s
    ∧ ret (azure_rename s p from to flags) = ENOTSUP
    ∧ post (azure_rename s p from to flags) = s
    ∧ (∀ bucket auth_token config a,
         out (azure_customize_file_system s bucket auth_token config) = Some a →
         ∃ afs,
           file_systems (post (azure_customize_file_system s bucket auth_token config)) !! a
             = Some afs
           ∧ fs_remove (fs afs) = Some fn_azure_remove
           ∧ fs_rename (fs afs) = Some fn_azure_rename
           ∧ fs_directory_list (fs afs) = Some fn_azure_object_list
           ∧ fs_directory_list_single (fs afs) = Some fn_azure_object_list_single
           ∧ fs_open_file (fs afs) = Some fn_azure_file_open
           ∧ fs_size (fs afs) = Some fn_azure_object_size
           ∧ fs_exist (fs afs) = Some fn_azure_file_system_exists)
    ∧ fh_read (azure_file_handle_table n) = Some fn_azure_file_read
    ∧ fh_size (azure_file_handle_table n) = Some fn_azure_file_size.
Proof.
  intros s p n from to flags.
  repeat (split; [reflexivity |]).
  split; [| split; reflexivity].
  intros bucket auth_token config a. unfold azure_customize_file_system.
  destruct bucket as [[| c b]|]; simpl; try discriminate.
  destruct (config_get_string config "prefix") as [ret1 prefix_value].
  destruct (negb (ret1 =? 0) && negb (ret1 =? WT_NOTFOUND)); simpl; [discriminate |].
  destruct file_system_get as [ret2 wt_file_system].
  destruct (negb (ret2 =? 0)); simpl; [discriminate |].
  destruct (heap_exhausted s); simpl; [discriminate |].
  destruct (new_azure_connection _ _) as [conn | what]; simpl; [| discriminate].
  intros [= <-]. eexists. split; [apply lookup_insert_eq |].
  repeat split.
Qed.

(** C8: when the source file exists on disk and the native file system
    reports it, [azure_flush] returns 0 whatever [put_object] returns; a
    failed upload shows only as a line on std::cerr, and the store differs
    from the one before only by the connection, which is as [put_object]
    left it, so the object need not be in the bucket. *)
Theorem azure_flush_returns_zero_on_failed_upload :
  ∀ (s : azure_store) (p : addr) (afs : azure_file_system) (conn : azure_connection)
    (source object config : string),
    file_systems s !! p = Some afs → azure_conn afs = Some conn →
    filesystem_exists source = true →
    native_fs_exist (wt_fs afs) (filesystem_canonical source) = (0, true) →
    ∃ r, azure_flush s p source object config = Some r
      ∧ ret r = 0
      ∧ (∀ put_ret conn',
           put_object conn object (filesystem_canonical source) = (put_ret, conn') →
           (put_ret ≠ 0 →
              (Cerr, "azure_flush: Put object request to Azure failed.") ∈ logged r)
           ∧ post r = set_file_systems s
                        (<[p := set_azure_conn afs (Some conn')]> (file_systems s))).
Proof.
  intros s p afs conn source object config Hp Hconn Hdisk Hnative.
  eexists. split; [apply (azure_flush_uploads _ _ _ _ _ _ _ Hp Hconn Hdisk Hnative) |].
  simpl. split; [reflexivity |].
  intros put_ret conn' Hput. rewrite Hput. simpl. split; [| reflexivity].
  intros Hne%Z.eqb_neq. rewrite Hne. simpl. set_solver.
Qed.

(** C10: [azure_file_open] returns EINVAL, writes no handle and leaves the
    store alone when the flags lack read-only access, or include create, or
    the file type is neither data nor regular, or Azure reports that the
    object does not exist; a handle comes out only when all four conditions
    are met. *)
Theorem azure_file_open_einval :
  ∀ (s : azure_store) (p : addr) (n : string) (file_type flags : Z),
    (Z.land flags WT_FS_OPEN_READONLY = 0
     ∨ Z.land flags WT_FS_OPEN_CREATE ≠ 0
     ∨ (file_type ≠ WT_FS_OPEN_FILE_TYPE_DATA ∧ file_type ≠ WT_FS_OPEN_FILE_TYPE_REGULAR)
     ∨ object_reported s p n false →
     ∃ r, azure_file_open s p n file_type flags = Some r
          ∧ ret r = EINVAL ∧ out r = None ∧ post r = s)
    ∧ (∀ r a, azure_file_open s p n file_type flags = Some r → out r = Some a →
         Z.land flags WT_FS_OPEN_READONLY ≠ 0
         ∧ Z.land flags WT_FS_OPEN_CREATE = 0
         ∧ (file_type = WT_FS_OPEN_FILE_TYPE_DATA ∨ file_type = WT_FS_OPEN_FILE_TYPE_REGULAR)
         ∧ object_reported s p n true).
Proof.
  intros s p n file_type flags. split.
  - intros Hbad.
    destruct (decide (Z.land flags WT_FS_OPEN_READONLY = 0)) as [Hr | Hr].
    { eexists. split; [apply azure_file_open_flags; auto | auto]. }
    destruct (decide (Z.land flags WT_FS_OPEN_CREATE = 0)) as [Hc | Hc].
    2: { eexists. split; [apply azure_file_open_flags; auto | auto]. }
    destruct (decide (file_type = WT_FS_OPEN_FILE_TYPE_DATA)) as [Hd | Hd].
    2: destruct (decide (file_type = WT_FS_OPEN_FILE_TYPE_REGULAR)) as [Hg | Hg].
    3: { eexists. split; [apply azure_file_open_type; auto | auto]. }
    all: destruct Hbad as [? | [? | [[? ?] | (afs & conn & size & Hp & Hconn & Hex)]]];
      try contradiction.
    all: rewrite (azure_file_open_checked s p n file_type flags Hr Hc) with (afs := afs) (conn := conn);
      auto.
    all: rewrite Hex; simpl; eexists; split; [reflexivity | auto].
  - intros r a Hopen Hout.
    destruct (azure_file_open_handle_inv _ _ _ _ _ _ _ Hopen Hout) as (? & ? & ? & ? & ?).
    auto.
Qed.


End Results.

(** ** A concrete platform

    Linux errno values, the flag bits and file types of wiredtiger.h, a
    bucket as a finite map from object names to sizes together with a switch
    telling whether requests reach Azure, and a native file system given by
    the list of its paths. *)
Record bucket := { blobs : gmap string Z; online : bool }.

Definition bucket_object_exists (b : bucket) (n : string) : Z * bool * Z :=
  if online b then
    match blobs b !! n with
    | Some size => (0, true, size)
    | None => (0, false, 0)
    end
  else (-1, false, 0).

Definition bucket_put_object (b : bucket) (object path : string) : Z * bucket :=
  if online b then (0, {| blobs := <[object := 4096]> (blobs b); online := true |})
  else (-1, b).

#[local] Instance linux_platform : Platform := {|
  EINVAL := 22;
  ENOENT := 2;
  ENOMEM := 12;
  ENOTSUP := 95;
  WT_NOTFOUND := -31803;
  WT_FS_OPEN_CREATE := 4;
  WT_FS_OPEN_READONLY := 256;
  WT_FS_OPEN_FILE_TYPE_DATA := 1;
  WT_FS_OPEN_FILE_TYPE_REGULAR := 4;
  azure_connection := bucket;
  new_azure_connection := λ bucket_name obj_prefix,
    inl {| blobs := {[ "WiredTiger.wt" := 4096 ]};
           online := negb (String.eqb bucket_name "unreachable") |};
  object_exists := bucket_object_exists;
  put_object := bucket_put_object;
  WT_FILE_SYSTEM_native := list string;
  native_fs_exist := λ files path, (0, bool_decide (path ∈ files));
  filesystem_exists := λ path, bool_decide (path ∈ ["/data/table.wt"]);
  filesystem_canonical := λ path, path;
  config_get_string := λ config key, (-31803, "");
  file_system_get := (0, ["/data/table.wt"]);
  get_home := "/data";
|}.

(** One file system on a reachable bucket, and one on a bucket that no request
    reaches. *)
Definition reachable_store : azure_store :=
  post (azure_customize_file_system initial_store (Some "bucket") "" "").

Definition unreachable_store : azure_store :=
  post (azure_customize_file_system initial_store (Some "unreachable") "" "").

(** The reachable file system with WiredTiger.wt opened once. *)
Definition open_store : azure_store :=
  match azure_file_open reachable_store 0%nat "WiredTiger.wt" 1 256 with
  | Some r => post r
  | None => reachable_store
  end.

Definition unreachable_bucket : bucket :=
  {| blobs := {[ "WiredTiger.wt" := 4096 ]}; online := false |}.

Definition unreachable_file_system : azure_file_system :=
  @Build_azure_file_system linux_platform azure_file_system_table ["/data/table.wt"] []
    (Some unreachable_bucket) "/data".

Lemma azure_flush_returns_zero_on_failed_upload_witness :
  ∃ r, azure_flush unreachable_store 0%nat "/data/table.wt" "table.wt" "" = Some r
       ∧ ret r = 0
       ∧ (Cerr, "azure_flush: Put object request to Azure failed.") ∈ logged r
       ∧ ∃ afs conn, file_systems (post r) !! 0%nat = Some afs
                     ∧ azure_conn afs = Some conn
                     ∧ blobs conn !! "table.wt" = None.
Proof.
  destruct (azure_flush_returns_zero_on_failed_upload
              unreachable_store 0%nat unreachable_file_system unreachable_bucket
              "/data/table.wt" "table.wt" "")
    as (r & Hflush & Hret & Hput); try (vm_compute; reflexivity).
  exists r. split; [exact Hflush |]. split; [exact Hret |].
  destruct (Hput (-1) unreachable_bucket) as [Hlog Hpost]; [vm_compute; reflexivity |].
  split; [apply Hlog; lia |].
  exists (set_azure_conn unreachable_file_system (Some unreachable_bucket)), unreachable_bucket.
  split; [rewrite Hpost; apply lookup_insert_eq |]. split; reflexivity.
Defined.

Lemma open_store_reachable : reachable open_store.
Proof.
  unfold open_store.
  assert (reachable reachable_store) as Hreach.
  { apply reachable_customize, reachable_init. }
  destruct (azure_file_open reachable_store 0%nat "WiredTiger.wt" 1 256) as [r |] eqn:Hopen;
    [| assumption].
  eapply reachable_open; eassumption.
Qed.



(** ** Sample calls on the concrete platform *)

Example open_missing_object :
  azure_file_open reachable_store 0%nat "missing.wt" 1 256
  = Some (Result 22 reachable_store None
            [(Cerr, "azure_file_open: no such file named missing.wt.")]).
Proof. vm_compute. reflexivity. Qed.

Example open_for_create :
  azure_file_open reachable_store 0%nat "WiredTiger.wt" 1 (256 + 4)
  = Some (Result 22 reachable_store None
            [(Cerr, "azure_file_open: read-only access required.")]).
Proof. vm_compute. reflexivity. Qed.

Example open_directory :
  azure_file_open reachable_store 0%nat "WiredTiger.wt" 2 256
  = Some (Result 22 reachable_store None
            [(Cerr, "azure_file_open: only data file and regular types supported.")]).
Proof. vm_compute. reflexivity. Qed.

(** A failed existence request hands its own return code back. *)
Example open_unreachable :
  azure_file_open unreachable_store 0%nat "WiredTiger.wt" 1 256
  = Some (Result (-1) unreachable_store None
            [(Cerr, "azure_file_open: object_exists request to Azure failed.")]).
Proof. vm_compute. reflexivity. Qed.

(** Two opens of one name share a handle; it leaves the list at the second
    close. *)
Example open_twice_close_twice :
  let listed (s : azure_store) := azure_fh <$> file_systems s !! 0%nat in
  let count (s : azure_store) := reference_count <$> file_handles s !! 0%nat in
  ∃ r1 r2 r3 r4,
    azure_file_open reachable_store 0%nat "WiredTiger.wt" 1 256 = Some r1
    ∧ azure_file_open (post r1) 0%nat "WiredTiger.wt" 4 256 = Some r2
    ∧ azure_file_close (post r2) 0%nat = Some r3
    ∧ azure_file_close (post r3) 0%nat = Some r4
    ∧ out r1 = Some 0%nat ∧ out r2 = Some 0%nat
    ∧ (listed (post r1), count (post r1)) = (Some [0%nat], Some 1)
    ∧ (listed (post r2), count (post r2)) = (Some [0%nat], Some 2)
    ∧ (listed (post r3), count (post r3)) = (Some [0%nat], Some 1)
    ∧ (listed (post r4), count (post r4)) = (Some [], Some 0).
Proof.
  eexists _, _, _, _.
  split; [vm_compute; reflexivity |]. split; [vm_compute; reflexivity |].
  split; [vm_compute; reflexivity |]. split; [vm_compute; reflexivity |].
  vm_compute. repeat split.
Qed.

Example remove_not_supported :
  azure_remove reachable_store 0%nat "WiredTiger.wt" 0
  = Result 95 reachable_store ()
      [(Cerr, "azure_remove: Object: WiredTiger.wt: remove of file not supported.")].
Proof. vm_compute. reflexivity. Qed.

(** ** The rest of the storage source

    The functions of the file not embedded above.  The store of this
    development is the one [azure_store] of the process, to which the
    [store] member of every file system points. *)

(** Further requests of [azure_connection] and of the WiredTiger connection:
    [list_objects] yields (return code, object names), [read_object] yields
    its return code and the bytes it put in the buffer, and
    [add_storage_source] is the return code of the call of that name in
    [wiredtiger_extension_init]. *)
Class Requests `{P : Platform} := {
  list_objects : azure_connection → string → bool → Z * list string;
  read_object : azure_connection → string → Z → Z → Z * list Byte.byte;
  add_storage_source : Z;
}.

Section Lifecycle.
Context `{R : Requests}.

(** *** wiredtiger_extension_init (lines 643-669): the return code and the
    store, [None] when it was deleted again. *)
Definition wiredtiger_extension_init : Z * option azure_store * list log_line :=
  if negb (add_storage_source =? 0) then
    (-1, None,
     [(Cerr, "wiredtiger_extension_init: Could not load Azure storage source, shutting down.")])
  else (0, Some initial_store, []).

(** *** azure_object_list and its helpers (lines 272-370) *)

(** std::string::back. *)
Fixpoint string_back (s : string) : option Ascii.ascii :=
  match s with
  | EmptyString => None
  | String c EmptyString => Some c
  | String _ rest => string_back rest
  end.

(** The prefix handed to [list_objects] (lines 283-290); [None] is a null
    pointer. *)
Definition complete_prefix (directory search_prefix : option string) : string :=
  let with_directory :=
    match directory with
    | Some d =>
        if (1 <? Z.of_nat (String.length d))
           && negb (bool_decide (string_back d = Some "/"%char))
        then d +:+ "/" else d
    | None => ""
    end in
  match search_prefix with
  | Some sp => with_directory +:+ sp
  | None => with_directory
  end.

(** azure_object_list_add (lines 345-370): the array written through
    [dirlistp], if any. *)
Definition azure_object_list_add (s : azure_store) (objects : list string) (count : Z)
    : result (option (list string)) :=
  if heap_exhausted s then
    Result ENOMEM s None
      [(Cerr, "azure_object_list_add: Unable to allocate memory for object list.")]
  else Result 0 s (Some (take (Z.to_nat count) objects)) [].

(** azure_object_list_helper (lines 272-308): [out] is what [*countp] holds
    and what was written through [dirlistp], if anything. *)
Definition azure_object_list_helper (s : azure_store) (file_system : addr)
    (directory search_prefix : option string) (list_single : bool)
    : option (result (Z * option (list string))) :=
  afs ← file_systems s !! file_system;
  conn ← azure_conn afs;
  let '(ret0, objects) := list_objects conn (complete_prefix directory search_prefix)
                            list_single in
  if negb (ret0 =? 0) then
    Some (Result ret0 s (0, None)
            [(Cerr, "azure_object_list: list_objects request to Azure failed.")])
  else
    let count := Z.of_nat (length objects) mod 2 ^ 32 in
    let added := azure_object_list_add s objects count in
    Some (Result ret0 s (count, out added)
            ((Cerr, "azure_object_list: list_objects request to Azure succeeded. Received "
                      +:+ pretty count +:+ " objects.") :: logged added)).

Definition azure_object_list (s : azure_store) (file_system : addr)
    (directory prefix : option string) : option (result (Z * option (list string))) :=
  azure_object_list_helper s file_system directory prefix false.

Definition azure_object_list_single (s : azure_store) (file_system : addr)
    (directory prefix : option string) : option (result (Z * option (list string))) :=
  azure_object_list_helper s file_system directory prefix true.

(** azure_object_list_free (lines 328-343). *)
Definition azure_object_list_free (s : azure_store) (file_system : addr)
    (dirlist : option (list string)) (count : Z) : result unit :=
  Result 0 s () [].

(** *** azure_file_read (lines 604-621): [ret] receives the outcome of the
    comparison [read_object(...) != 0]. *)
Definition azure_file_read (s : azure_store) (file_handle : addr) (offset len : Z)
    : option (result (list Byte.byte)) :=
  h ← file_handles s !! file_handle;
  afs ← file_systems s !! fh_fs h;
  conn ← azure_conn afs;
  let '(read_ret, buf) := read_object conn (name h) offset len in
  let ret0 := if negb (read_ret =? 0) then 1 else 0 in
  if negb (ret0 =? 0) then
    Some (Result ret0 s buf
            [(Cerr, "azure_file_read: read_object request to Azure failed.")])
  else Some (Result 0 s buf []).

(** *** What holds of the handles in every store *)

(** Every listed handle is live and belongs to the file system that lists
    it; the file system of every handle is live; reference counts are 32-bit
    values; every handle carries the read-only table. *)
Definition handles_owned (s : azure_store) : Prop :=
  (∀ p afs a, file_systems s !! p = Some afs → a ∈ azure_fh afs →
     ∃ h, file_handles s !! a = Some h ∧ fh_fs h = p)
  ∧ (∀ a h, file_handles s !! a = Some h →
       is_Some (file_systems s !! fh_fs h)
       ∧ 0 ≤ reference_count h < 2 ^ 32
       ∧ fh h = azure_file_handle_table (name h)).

(** The active list names live file systems only. *)
Definition listed_live (s : azure_store) : Prop :=
  Forall (λ p, is_Some (file_systems s !! p)) (azure_fs s).

End Lifecycle.

(** ** Results about the rest of the storage source *)
Section LifecycleResults.
Context `{R : Requests}.

(** *** Requests that only read *)

(** X1: [azure_file_read] on a live handle returns 0 when [read_object]
    returns 0 and 1 when it returns anything else, never the code itself;
    the buffer holds what [read_object] wrote and the store is unchanged. *)
Theorem azure_file_read_returns_zero_or_one :
  ∀ (s : azure_store) (a : addr) (h : azure_file_handle) (afs : azure_file_system)
    (conn : azure_connection) (offset len : Z),
    file_handles s !! a = Some h → file_systems s !! fh_fs h = Some afs →
    azure_conn afs = Some conn →
    ∃ r, azure_file_read s a offset len = Some r
      ∧ post r = s
      ∧ out r = (read_object conn (name h) offset len).2
      ∧ ((read_object conn (name h) offset len).1 = 0 → ret r = 0 ∧ logged r = [])
      ∧ ((read_object conn (name h) offset len).1 ≠ 0 → ret r = 1).
Proof.
  intros s a h afs conn offset len Ha Hfs Hconn. unfold azure_file_read.
  rewrite Ha. simpl. rewrite Hfs. simpl. rewrite Hconn. simpl.
  destruct (read_object conn (name h) offset len) as [read_ret buf]. simpl.
  destruct (read_ret =? 0) eqn:Hret; simpl.
  - apply Z.eqb_eq in Hret. eexists. split; [reflexivity |]. simpl.
    repeat split; auto; congruence.
  - apply Z.eqb_neq in Hret. eexists. split; [reflexivity |]. simpl.
    repeat split; auto; congruence.
Qed.

(** X2: [azure_flush_finish] returns 0 whenever the existence request
    succeeds, whether Azure reports the object present or absent, and leaves
    the store unchanged. *)
Theorem azure_flush_finish_ignores_absence :
  ∀ (s : azure_store) (p : addr) (source object config : string) (present : bool),
    object_reported s p object present →
    ∃ r, azure_flush_finish s p source object config = Some r
      ∧ ret r = 0 ∧ post r = s.
Proof.
  intros s p source object config present (afs & conn & size & Hp & Hconn & Hex).
  unfold azure_flush_finish, azure_file_system_exists.
  rewrite Hp. simpl. rewrite Hconn. simpl. rewrite Hex. simpl.
  eexists. split; [reflexivity |]. auto.
Qed.

(** A failed existence request comes back from [azure_flush_finish] as it is. *)
Lemma azure_flush_finish_request_failed s p afs conn source object config ret0 ex size :
  file_systems s !! p = Some afs → azure_conn afs = Some conn →
  object_exists conn object = (ret0, ex, size) → ret0 ≠ 0 →
  ∃ r, azure_flush_finish s p source object config = Some r ∧ ret r = ret0 ∧ post r = s.
Proof.
  intros Hp Hconn Hex Hne%Z.eqb_neq.
  unfold azure_flush_finish, azure_file_system_exists.
  rewrite Hp. simpl. rewrite Hconn. simpl. rewrite Hex, Hne. simpl.
  eexists. split; [reflexivity |]. auto.
Qed.

(** X3: a call of [azure_flush] that does not return 0 leaves the store as
    it was; it returns ENOENT when the source is not on disk or the native
    file system does not have it, and the code of the native check when that
    fails. *)
Theorem azure_flush_failure_leaves_store :
  ∀ (s : azure_store) (p : addr) (source object config : string) (r : result unit),
    azure_flush s p source object config = Some r →
    (ret r ≠ 0 → post r = s)
    ∧ (filesystem_exists source = false → ret r = ENOENT ∧ post r = s)
    ∧ (∀ afs code present,
         file_systems s !! p = Some afs → filesystem_exists source = true →
         native_fs_exist (wt_fs afs) (filesystem_canonical source) = (code, present) →
         (code ≠ 0 → ret r = code ∧ post r = s)
         ∧ (code = 0 → present = false → ret r = ENOENT ∧ post r = s)).
Proof.
  intros s p source object config r. unfold azure_flush.
  destruct (file_systems s !! p) as [afs |] eqn:Hp; simpl; [| discriminate].
  destruct (filesystem_exists source) eqn:Hdisk; simpl.
  2: { intros [= <-]. simpl. repeat split; auto; congruence. }
  destruct (native_fs_exist (wt_fs afs) (filesystem_canonical source))
    as [ret0 exists_native] eqn:Hnative.
  destruct (ret0 =? 0) eqn:Hret; simpl.
  2: { apply Z.eqb_neq in Hret. intros [= <-]. simpl.
       split; [auto |]. split; [discriminate |].
       intros afs' code present [= <-] _ Hn. rewrite Hnative in Hn.
       injection Hn as <- <-. split; [auto | contradiction]. }
  apply Z.eqb_eq in Hret. subst ret0.
  destruct exists_native; simpl.
  2: { intros [= <-]. simpl.
       split; [auto |]. split; [discriminate |].
       intros afs' code present [= <-] _ Hn. rewrite Hnative in Hn.
       injection Hn as <- <-. split; [contradiction | auto]. }
  destruct (azure_conn afs) as [conn |]; simpl; [| discriminate].
  destruct (put_object conn object (filesystem_canonical source)) as [put_ret conn'].
  intros [= <-]. simpl.
  split; [intros Hne; contradiction |]. split; [discriminate |].
  intros afs' code present [= <-] _ Hn. rewrite Hnative in Hn.
  injection Hn as <- <-. split; [contradiction | discriminate].
Qed.

Lemma wt_off_t_of_size_t_small size :
  0 ≤ size < 2 ^ 63 → wt_off_t_of_size_t size = size.
Proof.
  intros Hsize. unfold wt_off_t_of_size_t. rewrite Z.mod_small by lia.
  destruct (size <? 2 ^ 63) eqn:Hlt; [reflexivity |].
  apply Z.ltb_ge in Hlt. lia.
Qed.

Lemma wt_off_t_of_size_t_large size :
  2 ^ 63 ≤ size < 2 ^ 64 → wt_off_t_of_size_t size = size - 2 ^ 64.
Proof.
  intros Hsize. unfold wt_off_t_of_size_t. rewrite Z.mod_small by lia.
  destruct (size <? 2 ^ 63) eqn:Hlt; [| reflexivity].
  apply Z.ltb_lt in Hlt. lia.
Qed.

(** X4: [azure_object_size] returns 0 whenever the request succeeds, also
    for an object reported absent, with the reported [size_t] read as a
    signed 64-bit number: the size itself below 2^63 and a negative number
    from 2^63 on; it returns the request's code with size 0 otherwise.
    [azure_file_size] on a handle gives the same return code and size as
    [azure_object_size] on the name and file system of that handle. *)
Theorem azure_file_size_agrees_with_object_size :
  ∀ (s : azure_store) (a : addr) (h : azure_file_handle) (afs : azure_file_system)
    (conn : azure_connection) (code : Z) (present : bool) (size : Z),
    file_handles s !! a = Some h → file_systems s !! fh_fs h = Some afs →
    azure_conn afs = Some conn →
    object_exists conn (name h) = (code, present, size) →
    ∃ r r', azure_object_size s (fh_fs h) (name h) = Some r
      ∧ azure_file_size s a = Some r'
      ∧ ret r' = ret r ∧ out r' = out r
      ∧ post r = s ∧ post r' = s
      ∧ (code = 0 →
           ret r = 0
           ∧ (0 ≤ size < 2 ^ 63 → out r = size)
           ∧ (2 ^ 63 ≤ size < 2 ^ 64 → out r = size - 2 ^ 64 ∧ out r < 0))
      ∧ (code ≠ 0 → ret r = code ∧ out r = 0).
Proof.
  intros s a h afs conn code present size Ha Hfs Hconn Hex.
  unfold azure_object_size, azure_file_size.
  rewrite Ha. simpl. rewrite Hfs. simpl. rewrite Hconn. simpl. rewrite Hex.
  destruct (code =? 0) eqn:Hcode; simpl.
  - apply Z.eqb_eq in Hcode. eexists _, _. split; [reflexivity |]. split; [reflexivity |].
    simpl. split; [reflexivity |]. split; [reflexivity |].
    split; [reflexivity |]. split; [reflexivity |]. split; [| congruence].
    intros _. split; [reflexivity |]. split.
    + apply wt_off_t_of_size_t_small.
    + intros Hlarge. rewrite (wt_off_t_of_size_t_large _ Hlarge). lia.
  - apply Z.eqb_neq in Hcode. eexists _, _. split; [reflexivity |]. split; [reflexivity |].
    simpl. repeat split; auto; congruence.
Qed.

(** X5: the functions that only ask or refuse never change the store:
    exists, the two size functions, lock, read, flush_finish, the two
    listings and their free, remove and rename. *)
Theorem queries_leave_store_unchanged :
  ∀ (s : azure_store),
    (∀ p n r, azure_file_system_exists s p n = Some r → post r = s)
    ∧ (∀ p n r, azure_object_size s p n = Some r → post r = s)
    ∧ (∀ a r, azure_file_size s a = Some r → post r = s)
    ∧ (∀ a lock, post (azure_file_lock s a lock) = s)
    ∧ (∀ a offset len r, azure_file_read s a offset len = Some r → post r = s)
    ∧ (∀ p source object config r,
         azure_flush_finish s p source object config = Some r → post r = s)
    ∧ (∀ p directory prefix r, azure_object_list s p directory prefix = Some r → post r = s)
    ∧ (∀ p directory prefix r,
         azure_object_list_single s p directory prefix = Some r → post r = s)
    ∧ (∀ p dirlist count, post (azure_object_list_free s p dirlist count) = s)
    ∧ (∀ p n flags, post (azure_remove s p n flags) = s)
    ∧ (∀ p from to flags, post (azure_rename s p from to flags) = s).
Proof.
  intros s.
  assert (∀ p n r, azure_file_system_exists s p n = Some r → post r = s) as Hexists.
  { intros p n r. unfold azure_file_system_exists.
    destruct (file_systems s !! p) as [afs |]; simpl; [| discriminate].
    destruct (azure_conn afs) as [conn |]; simpl; [| discriminate].
    destruct (object_exists conn n) as [[ret0 ex] size].
    destruct (negb (ret0 =? 0)); intros [= <-]; reflexivity. }
  assert (∀ p directory prefix single r,
            azure_object_list_helper s p directory prefix single = Some r → post r = s)
    as Hlist.
  { intros p directory prefix single r. unfold azure_object_list_helper.
    destruct (file_systems s !! p) as [afs |]; simpl; [| discriminate].
    destruct (azure_conn afs) as [conn |]; simpl; [| discriminate].
    destruct (list_objects conn _ single) as [ret0 objects].
    destruct (negb (ret0 =? 0)); intros [= <-]; reflexivity. }
  split; [exact Hexists |]. split; [| split; [| split; [| split; [| split]]]].
  - intros p n r. unfold azure_object_size.
    destruct (file_systems s !! p) as [afs |]; simpl; [| discriminate].
    destruct (azure_conn afs) as [conn |]; simpl; [| discriminate].
    destruct (object_exists conn n) as [[ret0 ex] size].
    destruct (negb (ret0 =? 0)); intros [= <-]; reflexivity.
  - intros a r. unfold azure_file_size.
    destruct (file_handles s !! a) as [h |]; simpl; [| discriminate].
    destruct (file_systems s !! fh_fs h) as [afs |]; simpl; [| discriminate].
    destruct (azure_conn afs) as [conn |]; simpl; [| discriminate].
    destruct (object_exists conn (name h)) as [[ret0 ex] size].
    destruct (negb (ret0 =? 0)); intros [= <-]; reflexivity.
  - reflexivity.
  - intros a offset len r. unfold azure_file_read.
    destruct (file_handles s !! a) as [h |]; simpl; [| discriminate].
    destruct (file_systems s !! fh_fs h) as [afs |]; simpl; [| discriminate].
    destruct (azure_conn afs) as [conn |]; simpl; [| discriminate].
    destruct (read_object conn (name h) offset len) as [read_ret buf].
    destruct (read_ret =? 0); simpl; intros [= <-]; reflexivity.
  - intros p source object config r. unfold azure_flush_finish.
    destruct (azure_file_system_exists s p object) as [r0 |] eqn:Hr0; simpl; [| discriminate].
    intros [= <-]. simpl. eapply Hexists. eassumption.
  - split; [intros p directory prefix r; apply Hlist |].
    split; [intros p directory prefix r; apply Hlist |].
    repeat split.
Qed.

(** *** References to the storage source *)

Lemma set_store_reference_count_same s :
  set_store_reference_count s (store_reference_count s) = s.
Proof. destruct s. reflexivity. Qed.

Lemma uint32_decr_incr n : 0 ≤ n < 2 ^ 32 → uint32_decr (uint32_incr n) = n.
Proof.
  intros Hn. unfold uint32_decr, uint32_incr.
  rewrite Zminus_mod_idemp_l. replace (n + 1 - 1) with n by lia.
  apply Z.mod_small. assumption.
Qed.

Lemma azure_add_reference_adds s :
  0 < store_reference_count s < 2 ^ 32 - 1 →
  azure_add_reference s
  = Result 0 (set_store_reference_count s (store_reference_count s + 1)) () [].
Proof.
  intros Hrange. unfold azure_add_reference, uint32_incr.
  rewrite Z.mod_small by lia.
  assert ((store_reference_count s =? 0) = false) as -> by (apply Z.eqb_neq; lia).
  assert ((store_reference_count s + 1 =? 0) = false) as -> by (apply Z.eqb_neq; lia).
  reflexivity.
Qed.

Lemma azure_add_reference_refuses s :
  store_reference_count s = 0 ∨ store_reference_count s = 2 ^ 32 - 1 →
  azure_add_reference s
  = Result EINVAL s () [(Cerr, "azure_add_reference: missing reference or overflow.")].
Proof.
  intros [Hzero | Hmax]; unfold azure_add_reference, uint32_incr.
  - rewrite Hzero. reflexivity.
  - rewrite Hmax. reflexivity.
Qed.

(** X6: with a 32-bit count, [azure_add_reference] refuses with EINVAL and
    changes nothing when the count is 0 or would overflow, and otherwise
    adds one; so the count never becomes 0 by adding a reference. *)
Theorem azure_add_reference_guards :
  ∀ (s : azure_store), 0 ≤ store_reference_count s < 2 ^ 32 →
    (store_reference_count s = 0 ∨ store_reference_count s = 2 ^ 32 - 1 →
       ret (azure_add_reference s) = EINVAL ∧ post (azure_add_reference s) = s)
    ∧ (0 < store_reference_count s < 2 ^ 32 - 1 →
         ret (azure_add_reference s) = 0
         ∧ post (azure_add_reference s)
           = set_store_reference_count s (store_reference_count s + 1))
    ∧ (store_reference_count s ≠ 0 →
         0 < store_reference_count (post (azure_add_reference s)) < 2 ^ 32).
Proof.
  intros s Hrange. split; [| split].
  - intros Hcase. rewrite (azure_add_reference_refuses s Hcase). auto.
  - intros Hcase. rewrite (azure_add_reference_adds s Hcase). auto.
  - intros Hne.
    destruct (decide (store_reference_count s = 2 ^ 32 - 1)) as [Hmax | Hmax].
    + rewrite (azure_add_reference_refuses s (or_intror Hmax)). simpl. lia.
    + rewrite azure_add_reference_adds by lia. simpl. lia.
Qed.

(** X7: [azure_terminate] undoes [azure_add_reference]: after a reference was
    added to a store with a count between 1 and 2^32 - 2, terminating gives
    the store back with nothing deleted. *)
Theorem azure_terminate_undoes_add_reference :
  ∀ (s : azure_store), 0 < store_reference_count s < 2 ^ 32 - 1 →
    azure_terminate (post (azure_add_reference s)) = Some (Result 0 s false []).
Proof.
  intros s Hrange. rewrite (azure_add_reference_adds s Hrange).
  unfold azure_terminate. simpl.
  assert (uint32_decr (store_reference_count s + 1) = store_reference_count s) as Hdecr.
  { unfold uint32_decr. replace (store_reference_count s + 1 - 1)
      with (store_reference_count s) by lia. apply Z.mod_small. lia. }
  rewrite Hdecr.
  assert ((store_reference_count s =? 0) = false) as -> by (apply Z.eqb_neq; lia).
  simpl. destruct s. reflexivity.
Qed.

(** *** Terminating file systems *)

Lemma length_erase_remove_cons a l :
  (length (erase_remove a (a :: l)) ≤ length l)%nat.
Proof.
  unfold erase_remove. rewrite filter_cons_False by tauto. apply length_filter.
Qed.

(** What the loop of [azure_terminate] leaves. *)
Lemma terminate_file_systems_all rounds s :
  (length (azure_fs s) ≤ rounds)%nat → listed_live s →
  ∃ s', terminate_file_systems rounds s = Some s'
    ∧ azure_fs s' = []
    ∧ (∀ p, p ∈ azure_fs s → file_systems s' !! p = None)
    ∧ (∀ p, p ∉ azure_fs s → file_systems s' !! p = file_systems s !! p)
    ∧ file_handles s' = file_handles s
    ∧ store_reference_count s' = store_reference_count s.
Proof.
  revert s. induction rounds as [| rounds IH]; intros s Hlen Hlive.
  - destruct (azure_fs s) as [| front rest] eqn:Hlist; [| simpl in Hlen; lia].
    exists s. simpl. rewrite Hlist. repeat split; auto. intros p Hp. inversion Hp.
  - simpl. destruct (azure_fs s) as [| front rest] eqn:Hlist.
    { exists s. repeat split; auto. intros p Hp. inversion Hp. }
    unfold listed_live in Hlive. rewrite Hlist in Hlive.
    unfold azure_file_system_terminate.
    pose proof (Forall_inv Hlive) as [afs Hfront]. rewrite Hfront. simpl.
    set (s1 := set_file_systems _ _).
    destruct (IH s1) as (s' & Hrun & Hempty & Hgone & Hkept & Hhandles & Hcount).
    { subst s1. simpl. rewrite Hlist.
      pose proof (length_erase_remove_cons front rest). simpl in Hlen. lia. }
    { subst s1. unfold listed_live. simpl. rewrite Hlist.
      apply Forall_forall. intros q Hq.
      apply list_elem_of_filter in Hq as [Hne Hq].
      rewrite lookup_delete_ne by congruence.
      rewrite Forall_forall in Hlive. apply Hlive. assumption. }
    exists s'. split; [exact Hrun |]. split; [exact Hempty |].
    assert (∀ q, q ∈ azure_fs s1 ↔ q ≠ front ∧ q ∈ front :: rest) as Hmem.
    { intros q. subst s1. simpl. rewrite Hlist. unfold erase_remove.
      rewrite list_elem_of_filter. reflexivity. }
    split; [| split; [| split]].
    + intros q Hq. destruct (decide (q = front)) as [-> | Hne].
      * rewrite Hkept by (rewrite Hmem; tauto).
        subst s1. simpl. apply lookup_delete_eq.
      * apply Hgone. apply Hmem. auto.
    + intros q Hq.
      rewrite Hkept by (rewrite Hmem; tauto).
      subst s1. simpl. apply lookup_delete_ne. intros ->. apply Hq. left.
    + rewrite Hhandles. reflexivity.
    + rewrite Hcount. reflexivity.
Qed.

(** X8: when the last reference goes, [azure_terminate] terminates every
    active file system and deletes the store: the active list ends empty,
    the listed file systems are freed and no other, and no file handle is
    freed, so the handles of those file systems are left behind. *)
Theorem azure_terminate_last_reference :
  ∀ (s : azure_store), store_reference_count s = 1 → listed_live s →
    ∃ r, azure_terminate s = Some r
      ∧ ret r = 0 ∧ out r = true
      ∧ azure_fs (post r) = []
      ∧ (∀ p, p ∈ azure_fs s → file_systems (post r) !! p = None)
      ∧ (∀ p, p ∉ azure_fs s → file_systems (post r) !! p = file_systems s !! p)
      ∧ file_handles (post r) = file_handles s.
Proof.
  intros s Hone Hlive.
  destruct (terminate_file_systems_all (length (azure_fs s))
              (set_store_reference_count s 0))
    as (s' & Hrun & Hempty & Hgone & Hkept & Hhandles & _);
    [reflexivity | exact Hlive |].
  unfold azure_terminate. rewrite Hone. change (uint32_decr 1) with 0.
  cbv zeta. change (negb (store_reference_count (set_store_reference_count s 0) =? 0))
    with false. cbv iota.
  change (azure_fs (set_store_reference_count s 0)) with (azure_fs s).
  rewrite Hrun. simpl.
  eexists. split; [reflexivity |]. simpl. auto 10.
Qed.

(** A count above one only goes down. *)
Lemma azure_terminate_other_reference s :
  1 < store_reference_count s < 2 ^ 32 →
  azure_terminate s
  = Some (Result 0 (set_store_reference_count s (store_reference_count s - 1)) false []).
Proof.
  intros Hrange. unfold azure_terminate, uint32_decr. simpl.
  rewrite Z.mod_small by lia.
  assert ((store_reference_count s - 1 =? 0) = false) as -> by (apply Z.eqb_neq; lia).
  reflexivity.
Qed.

Lemma filter_all_addr (Q : nat → Prop) `{!∀ x, Decision (Q x)} (l : list nat) :
  Forall Q l → filter Q l = l.
Proof.
  induction 1 as [| x l Hx _ IH]; [reflexivity |].
  rewrite filter_cons_True by assumption. rewrite IH. reflexivity.
Qed.

(** X9: [azure_customize_file_system] changes the store only when it hands
    out a file system; then it returned 0, the file system is new, has no
    handle and the function table, is appended to the active list, and
    [azure_file_system_terminate] on it gives back the active list and the
    file systems as they were. *)
Theorem azure_customize_then_terminate :
  ∀ (s : azure_store) (bucket : option string) (auth_token config : string),
    listed_live s →
    let r := azure_customize_file_system s bucket auth_token config in
    (out r = None → post r = s)
    ∧ (bucket = None ∨ bucket = Some "" → ret r = EINVAL ∧ out r = None)
    ∧ (∀ a, out r = Some a →
         ret r = 0
         ∧ file_systems s !! a = None
         ∧ azure_fs (post r) = (azure_fs s ++ [a])%list
         ∧ file_handles (post r) = file_handles s
         ∧ (∃ afs, file_systems (post r) !! a = Some afs
                   ∧ azure_fh afs = [] ∧ fs afs = azure_file_system_table
                   ∧ home_dir afs = get_home)
         ∧ ∃ r', azure_file_system_terminate (post r) a = Some r'
                 ∧ ret r' = 0
                 ∧ azure_fs (post r') = azure_fs s
                 ∧ file_systems (post r') = file_systems s
                 ∧ file_handles (post r') = file_handles s).
Proof.
  intros s bucket auth_token config Hlive r. subst r.
  unfold azure_customize_file_system.
  destruct bucket as [[| c b] |]; simpl;
    try (split; [auto |]; split; [auto |]; intros a; discriminate).
  destruct (config_get_string config "prefix") as [ret1 prefix_value].
  destruct (negb (ret1 =? 0) && negb (ret1 =? WT_NOTFOUND)); simpl;
    [split; [auto |]; split; [intros [|]; discriminate |]; intros a; discriminate |].
  destruct file_system_get as [ret2 wt_file_system].
  destruct (ret2 =? 0) eqn:Hret2; simpl;
    [| split; [auto |]; split; [intros [|]; discriminate |]; intros a; discriminate].
  apply Z.eqb_eq in Hret2. subst ret2.
  destruct (heap_exhausted s); simpl;
    [split; [auto |]; split; [intros [|]; discriminate |]; intros a; discriminate |].
  destruct (new_azure_connection _ _) as [conn | what]; simpl;
    [| split; [auto |]; split; [intros [|]; discriminate |]; intros a; discriminate].
  split; [discriminate |]. split; [intros [|]; discriminate |].
  intros a [= <-].
  set (a := fresh (dom (file_systems s))).
  assert (file_systems s !! a = None) as Hfresh.
  { apply not_elem_of_dom. apply is_fresh. }
  assert (a ∉ azure_fs s) as Hnotin.
  { intros Hin. unfold listed_live in Hlive. rewrite Forall_forall in Hlive.
    destruct (Hlive a Hin) as [afs Hafs]. congruence. }
  split; [reflexivity |]. split; [exact Hfresh |].
  split; [reflexivity |]. split; [reflexivity |]. split.
  - eexists. split; [apply lookup_insert_eq |]. auto.
  - unfold azure_file_system_terminate. simpl. rewrite lookup_insert_eq. simpl.
    eexists. split; [reflexivity |]. simpl. split; [reflexivity |].
    split; [| split; [| reflexivity]].
    + unfold erase_remove. rewrite filter_app, filter_cons_False by tauto.
      rewrite filter_nil, app_nil_r. apply filter_all_addr. 
      apply Forall_forall. intros q Hq ->. contradiction.
    + rewrite delete_insert_eq. apply delete_id. exact Hfresh.
Qed.

(** *** Listing objects *)

Lemma string_app_cons (x : Ascii.ascii) (a b : string) :
  String x a +:+ b = String x (a +:+ b).
Proof. reflexivity. Qed.

Lemma string_app_assoc (a b c : string) : (a +:+ b) +:+ c = a +:+ (b +:+ c).
Proof.
  induction a as [| x a IH]; [reflexivity |].
  rewrite !string_app_cons. f_equal. exact IH.
Qed.

Lemma string_app_nil_r (a : string) : a +:+ "" = a.
Proof.
  induction a as [| x a IH]; [reflexivity |].
  rewrite string_app_cons. f_equal. exact IH.
Qed.

Lemma string_back_snoc (d : string) (c : Ascii.ascii) :
  string_back (d +:+ String c EmptyString) = Some c.
Proof.
  induction d as [| x d IH]; [reflexivity |].
  rewrite string_app_cons. destruct d as [| y d]; [reflexivity |].
  rewrite string_app_cons in *. exact IH.
Qed.

Lemma string_length_snoc (d : string) (c : Ascii.ascii) :
  String.length (d +:+ String c EmptyString) = S (String.length d).
Proof.
  induction d as [| x d IH]; [reflexivity |].
  rewrite string_app_cons. simpl. f_equal. exact IH.
Qed.

(** X10: the prefix handed to [list_objects] is the directory, a slash and
    the search prefix when the directory has at least two characters; the
    slash is not doubled when the directory already ends in one; a directory
    of a single character (or the empty one) gets no slash at all. *)
Theorem complete_prefix_separator :
  ∀ (d sp : string),
    ((String.length d ≤ 1)%nat → complete_prefix (Some d) (Some sp) = d +:+ sp)
    ∧ (string_back d = Some "/"%char → complete_prefix (Some d) (Some sp) = d +:+ sp)
    ∧ ((1 < String.length d)%nat → string_back d ≠ Some "/"%char →
         complete_prefix (Some d) (Some sp) = d +:+ ("/" +:+ sp)
         ∧ complete_prefix (Some (d +:+ "/")) (Some sp) = complete_prefix (Some d) (Some sp))
    ∧ complete_prefix None (Some sp) = sp
    ∧ complete_prefix (Some d) None = complete_prefix (Some d) (Some "")
    ∧ complete_prefix None None = "".
Proof.
  intros d sp. unfold complete_prefix.
  split; [| split; [| split; [| split; [| split]]]].
  - intros Hlen.
    assert ((1 <? Z.of_nat (String.length d)) = false) as -> by (apply Z.ltb_ge; lia).
    reflexivity.
  - intros Hback. rewrite (bool_decide_eq_true_2 _ Hback), andb_false_r. reflexivity.
  - intros Hlen Hback.
    assert ((1 <? Z.of_nat (String.length d)) = true) as -> by (apply Z.ltb_lt; lia).
    rewrite (bool_decide_eq_false_2 _ Hback). simpl.
    rewrite string_back_snoc, bool_decide_eq_true_2 by reflexivity.
    rewrite andb_false_r. rewrite string_app_assoc. auto.
  - reflexivity.
  - rewrite string_app_nil_r. reflexivity.
  - reflexivity.
Qed.


(** *** The handles of every store that the operations lead to *)

Lemma uint32_incr_range n : 0 ≤ uint32_incr n < 2 ^ 32.
Proof. unfold uint32_incr. apply Z.mod_pos_bound. lia. Qed.

Lemma uint32_decr_range n : 0 ≤ uint32_decr n < 2 ^ 32.
Proof. unfold uint32_decr. apply Z.mod_pos_bound. lia. Qed.

Lemma handles_owned_initial : handles_owned initial_store.
Proof.
  split.
  - intros p afs a Hp. simpl in Hp. rewrite lookup_empty in Hp. discriminate.
  - intros a h Ha. simpl in Ha. rewrite lookup_empty in Ha. discriminate.
Qed.

Lemma handles_owned_recount s a h rc :
  handles_owned s → file_handles s !! a = Some h → 0 ≤ rc < 2 ^ 32 →
  handles_owned (set_file_handles s (<[a := set_reference_count h rc]> (file_handles s))).
Proof.
  intros [Hlisted Hhandle] Ha Hrc. split; simpl.
  - intros p afs b Hp Hb. destruct (Hlisted p afs b Hp Hb) as (hb & Hhb & Hfs).
    destruct (decide (a = b)) as [<- | Hne].
    + rewrite lookup_insert_eq. eexists. split; [reflexivity |]. simpl. congruence.
    + rewrite lookup_insert_ne by assumption. eauto.
  - intros b hb. destruct (decide (a = b)) as [<- | Hne].
    + rewrite lookup_insert_eq. intros [= <-]. simpl.
      destruct (Hhandle a h Ha) as (Hlive & _ & Htable). auto.
    + rewrite lookup_insert_ne by assumption. apply Hhandle.
Qed.

Lemma handles_owned_relist s p afs afs' :
  handles_owned s → file_systems s !! p = Some afs →
  (∀ a, a ∈ azure_fh afs' → a ∈ azure_fh afs) →
  handles_owned (set_file_systems s (<[p := afs']> (file_systems s))).
Proof.
  intros [Hlisted Hhandle] Hp Hsub. split; simpl.
  - intros q afs_q b Hq Hb. destruct (decide (p = q)) as [<- | Hne].
    + rewrite lookup_insert_eq in Hq. injection Hq as <-. eauto.
    + rewrite lookup_insert_ne in Hq by assumption. eauto.
  - intros b hb Hb. destruct (Hhandle b hb Hb) as (Hlive & Hrange & Htable).
    split; [| auto]. destruct (decide (p = fh_fs hb)) as [<- | Hne].
    + rewrite lookup_insert_eq. eauto.
    + rewrite lookup_insert_ne by assumption. assumption.
Qed.

Lemma handles_owned_new s p afs n :
  handles_owned s → file_systems s !! p = Some afs →
  handles_owned
    (set_file_systems
       (set_file_handles s
          (<[fresh (dom (file_handles s)) :=
               {| fh := azure_file_handle_table n; fh_fs := p; name := n;
                  reference_count := 1 |}]> (file_handles s)))
       (<[p := set_azure_fh afs (azure_fh afs ++ [fresh (dom (file_handles s))])]>
          (file_systems s))).
Proof.
  intros [Hlisted Hhandle] Hp.
  set (a := fresh (dom (file_handles s))).
  assert (file_handles s !! a = None) as Hfresh by (apply not_elem_of_dom, is_fresh).
  split; simpl.
  - intros q afs_q b Hq Hb. destruct (decide (p = q)) as [<- | Hne].
    + rewrite lookup_insert_eq in Hq. injection Hq as <-. simpl in Hb.
      apply elem_of_app in Hb as [Hb | Hb%list_elem_of_singleton].
      * destruct (Hlisted p afs b Hp Hb) as (hb & Hhb & Hfs).
        rewrite lookup_insert_ne by congruence. eauto.
      * subst b. rewrite lookup_insert_eq. eauto.
    + rewrite lookup_insert_ne in Hq by assumption.
      destruct (Hlisted q afs_q b Hq Hb) as (hb & Hhb & Hfs).
      rewrite lookup_insert_ne by congruence. eauto.
  - intros b hb. destruct (decide (a = b)) as [<- | Hne].
    + rewrite lookup_insert_eq. intros [= <-]. simpl.
      rewrite lookup_insert_eq. split; [eauto |]. split; [lia | reflexivity].
    + rewrite lookup_insert_ne by assumption. intros Hb.
      destruct (Hhandle b hb Hb) as (Hlive & Hrange & Htable).
      split; [| auto]. destruct (decide (p = fh_fs hb)) as [<- | Hne'].
      * rewrite lookup_insert_eq. eauto.
      * rewrite lookup_insert_ne by assumption. assumption.
Qed.

Lemma handles_owned_customize s bucket auth_token config :
  handles_owned s →
  handles_owned (post (azure_customize_file_system s bucket auth_token config)).
Proof.
  intros Howned. unfold azure_customize_file_system.
  destruct bucket as [[| c0 b0] |]; simpl; try assumption.
  destruct (config_get_string config "prefix") as [ret1 prefix_value].
  destruct (negb (ret1 =? 0) && negb (ret1 =? WT_NOTFOUND)); simpl; [assumption |].
  destruct file_system_get as [ret2 wt_file_system].
  destruct (negb (ret2 =? 0)); simpl; [assumption |].
  destruct (heap_exhausted s); simpl; [assumption |].
  destruct (new_azure_connection _ _) as [conn | what]; simpl; [| assumption].
  destruct Howned as [Hlisted Hhandle].
  assert (file_systems s !! fresh (dom (file_systems s)) = None) as Hfresh
    by (apply not_elem_of_dom, is_fresh).
  split; simpl.
  - intros q afs_q b Hq Hb.
    destruct (decide (fresh (dom (file_systems s)) = q)) as [<- | Hne].
    + rewrite lookup_insert_eq in Hq. injection Hq as <-. inversion Hb.
    + rewrite lookup_insert_ne in Hq by assumption. eauto.
  - intros b hb Hb. destruct (Hhandle b hb Hb) as (Hlive & Hrange & Htable).
    split; [| auto]. rewrite lookup_insert_ne; [assumption |].
    intros Heq. rewrite <- Heq in Hlive. rewrite Hfresh in Hlive.
    destruct Hlive as [? [=]].
Qed.

Lemma reachable_owned s : reachable s → handles_owned s.
Proof.
  induction 1 as [| s bucket auth_token config _ IH
                  | s p source object config r _ IH Hflush
                  | s p n file_type flags r _ IH Hopen
                  | s a r _ IH Hclose | s b _ IH].
  - apply handles_owned_initial.
  - apply handles_owned_customize. assumption.
  - revert Hflush. unfold azure_flush.
    destruct (file_systems s !! p) as [afs |] eqn:Hp; simpl; [| discriminate].
    destruct (negb (filesystem_exists source)); [intros [= <-]; assumption |].
    destruct (native_fs_exist (wt_fs afs) (filesystem_canonical source))
      as [ret0 exists_native].
    destruct (negb (ret0 =? 0)); [intros [= <-]; assumption |].
    destruct (negb exists_native); [intros [= <-]; assumption |].
    destruct (azure_conn afs) as [conn |]; simpl; [| discriminate].
    destruct (put_object conn object (filesystem_canonical source)) as [put_ret conn'].
    intros [= <-]. simpl.
    apply (handles_owned_relist s p afs _ IH Hp). auto.
  - destruct (azure_file_open_cases _ _ _ _ _ _ Hopen)
      as [[-> _] | [(afs & a & h & Hp & Hfind & Ha & ->) | (afs & Hp & Hfind & ->)]]; simpl.
    + assumption.
    + apply handles_owned_recount; [assumption | assumption | apply uint32_incr_range].
    + apply handles_owned_new; assumption.
  - revert Hclose. unfold azure_file_close.
    destruct (file_handles s !! a) as [h |] eqn:Ha; simpl; [| discriminate].
    pose proof (handles_owned_recount s a h (uint32_decr (reference_count h)) IH Ha
                  (uint32_decr_range _)) as IH1.
    destruct (negb _); [intros [= <-]; exact IH1 |].
    destruct (file_systems s !! fh_fs h) as [afs |] eqn:Hfs; simpl; [| discriminate].
    intros [= <-]. simpl.
    apply (handles_owned_relist _ (fh_fs h) afs _ IH1); [exact Hfs |].
    simpl. intros b Hb. unfold erase_remove in Hb.
    apply list_elem_of_filter in Hb. tauto.
  - exact IH.
Qed.

(** X12: in every store that init, customize, flush, open and close lead to,
    each listed handle is allocated and belongs to the file system that lists
    it, the file system of every handle is allocated, every reference count
    is a 32-bit value, and every handle has the read-only table: close, lock,
    read and size, and no write, truncate, sync, extend or map function. *)
Theorem reachable_handles_owned :
  ∀ (s : azure_store), reachable s →
    handles_owned s
    ∧ ∀ a h, file_handles s !! a = Some h →
        fh_write (fh h) = None ∧ fh_truncate (fh h) = None ∧ fh_sync (fh h) = None
        ∧ fh_sync_nowait (fh h) = None ∧ fh_extend (fh h) = None
        ∧ fh_extend_nolock (fh h) = None ∧ fh_map (fh h) = None
        ∧ fh_read (fh h) = Some fn_azure_file_read
        ∧ fh_close (fh h) = Some fn_azure_file_close.
Proof.
  intros s Howned%reachable_owned. split; [exact Howned |].
  intros a h Ha. destruct Howned as [_ Hhandle].
  destruct (Hhandle a h Ha) as (_ & _ & ->). repeat split.
Qed.

(** *** Opening and closing *)

Lemma erase_remove_snoc a l : a ∉ l → erase_remove a (l ++ [a]) = l.
Proof.
  intros Hnotin. unfold erase_remove.
  rewrite filter_app, filter_cons_False, filter_nil, app_nil_r by tauto.
  apply filter_all_addr. apply Forall_forall. intros q Hq ->. contradiction.
Qed.

(** X13: in a store the operations lead to, closing the handle that a
    successful [azure_file_open] returned undoes the open: the file systems
    and their handle lists are as before, every other handle is untouched,
    and a handle that existed before (with a count other than 0) has its
    count again; a handle created by the open stays allocated, off the list,
    with a count of 0. *)
Theorem azure_file_open_then_close :
  ∀ (s : azure_store) (p : addr) (n : string) (file_type flags : Z)
    (r1 : result (option addr)) (a : addr),
    reachable s →
    azure_file_open s p n file_type flags = Some r1 → out r1 = Some a →
    (∀ h, file_handles s !! a = Some h → reference_count h ≠ 0) →
    ∃ r2, azure_file_close (post r1) a = Some r2
      ∧ ret r2 = 0
      ∧ file_systems (post r2) = file_systems s
      ∧ azure_fs (post r2) = azure_fs s
      ∧ (∀ b, b ≠ a → file_handles (post r2) !! b = file_handles s !! b)
      ∧ (∀ h, file_handles s !! a = Some h → file_handles (post r2) !! a = Some h)
      ∧ (file_handles s !! a = None →
           file_handles (post r2) !! a
           = Some {| fh := azure_file_handle_table n; fh_fs := p; name := n;
                     reference_count := 0 |}).
Proof.
  intros s p n file_type flags r1 a Hreach Hopen Hout Hcount.
  pose proof (reachable_owned s Hreach) as [_ Hhandle].
  pose proof (reachable_wf s Hreach) as Hwf.
  destruct (azure_file_open_cases _ _ _ _ _ _ Hopen)
    as [[_ Hnone] | [(afs & a' & h & Hp & Hfind & Ha & ->) | (afs & Hp & Hfind & ->)]].
  - congruence.
  - simpl in Hout. injection Hout as ->.
    destruct (Hhandle a h Ha) as (_ & Hrange & _).
    unfold azure_file_close. simpl. rewrite lookup_insert_eq. simpl.
    rewrite (uint32_decr_incr _ Hrange).
    assert ((reference_count h =? 0) = false) as ->
      by (apply Z.eqb_neq; apply (Hcount h Ha)).
    simpl. eexists. split; [reflexivity |]. simpl.
    split; [reflexivity |]. split; [reflexivity |]. split; [reflexivity |].
    split; [| split].
    + intros b Hb. rewrite !lookup_insert_ne by congruence. reflexivity.
    + intros h' Hh'. rewrite lookup_insert_eq. rewrite Ha in Hh'. injection Hh' as <-.
      f_equal. destruct h. reflexivity.
    + congruence.
  - simpl in Hout. injection Hout as <-.
    set (a := fresh (dom (file_handles s))).
    assert (file_handles s !! a = None) as Hfresh by (apply not_elem_of_dom, is_fresh).
    assert (a ∉ azure_fh afs) as Hnotin.
    { apply fresh_not_listed. apply (Hwf p afs Hp). }
    unfold azure_file_close. simpl. rewrite lookup_insert_eq. simpl.
    change (uint32_decr 1) with 0. simpl. rewrite lookup_insert_eq. simpl.
    eexists. split; [reflexivity |]. simpl.
    split; [reflexivity |]. split; [| split; [reflexivity |]; split; [| split]].
    + rewrite insert_insert_eq. apply insert_id. rewrite Hp. f_equal.
      rewrite (erase_remove_snoc _ _ Hnotin). destruct afs. reflexivity.
    + intros b Hb. rewrite !lookup_insert_ne by congruence. reflexivity.
    + intros h' Hh'. congruence.
    + intros _. apply lookup_insert_eq.
Qed.

(** *** From init to the last terminate *)

(** X14: [wiredtiger_extension_init] returns -1 and keeps no store when the
    storage source cannot be added; otherwise it returns 0 with a store that
    holds one reference and no file system, from which the operations start,
    and one [azure_terminate] deletes that store again. *)
Theorem wiredtiger_extension_init_store :
  (add_storage_source ≠ 0 →
     wiredtiger_extension_init.1.1 = -1 ∧ wiredtiger_extension_init.1.2 = None)
  ∧ (add_storage_source = 0 →
       ∃ s, wiredtiger_extension_init = (0, Some s, [])
         ∧ reachable s
         ∧ store_reference_count s = 1 ∧ azure_fs s = []
         ∧ ∃ r, azure_terminate s = Some r ∧ ret r = 0 ∧ out r = true).
Proof.
  unfold wiredtiger_extension_init. split.
  - intros Hne%Z.eqb_neq. rewrite Hne. auto.
  - intros ->. simpl. exists initial_store.
    split; [reflexivity |]. split; [apply reachable_init |].
    split; [reflexivity |]. split; [reflexivity |].
    eexists. split; [reflexivity |]. auto.
Qed.

(** X17: closing a handle whose count is already 0 is not refused: the call
    returns 0 without a line logged, the count wraps to 2^32 - 1, and the
    file systems with their handle lists stay as they are. *)
Theorem azure_file_close_again_wraps :
  ∀ (s : azure_store) (a : addr) (h : azure_file_handle),
    file_handles s !! a = Some h → reference_count h = 0 →
    ∃ r, azure_file_close s a = Some r
      ∧ ret r = 0 ∧ logged r = []
      ∧ file_systems (post r) = file_systems s
      ∧ azure_fs (post r) = azure_fs s
      ∧ file_handles (post r) !! a = Some (set_reference_count h (2 ^ 32 - 1))
      ∧ (∀ b, b ≠ a → file_handles (post r) !! b = file_handles s !! b).
Proof.
  intros s a h Ha Hzero. unfold azure_file_close. rewrite Ha. simpl. rewrite Hzero.
  change (uint32_decr 0) with (2 ^ 32 - 1).
  change (negb (2 ^ 32 - 1 =? 0)) with true. cbv iota.
  eexists. split; [reflexivity |]. simpl.
  repeat split.
  - apply lookup_insert_eq.
  - intros b Hb. apply lookup_insert_ne. congruence.
Qed.

(** A handle that belongs to a file system with a connection can be sized
    and read. *)
Lemma azure_file_handle_usable s a h afs conn size :
  file_handles s !! a = Some h → file_systems s !! fh_fs h = Some afs →
  azure_conn afs = Some conn → object_exists conn (name h) = (0, true, size) →
  azure_file_size s a = Some (Result 0 s (wt_off_t_of_size_t size) [])
  ∧ ∀ offset len, is_Some (azure_file_read s a offset len).
Proof.
  intros Ha Hfs Hconn Hex. split.
  - unfold azure_file_size. rewrite Ha. simpl. rewrite Hfs. simpl. rewrite Hconn. simpl.
    rewrite Hex. reflexivity.
  - intros offset len. unfold azure_file_read.
    rewrite Ha. simpl. rewrite Hfs. simpl. rewrite Hconn. simpl.
    destruct (read_object conn (name h) offset len) as [read_ret buf].
    destruct (negb (read_ret =? 0)); simpl; eauto.
Qed.

(** X18: in a store the operations lead to, a handle that [azure_file_open]
    hands out came with return code 0, carries the name asked for, belongs
    to the file system asked and is on its list, and the object was reported
    present; [azure_file_size] on the handle then returns 0 with the size
    that was reported, read as a signed 64-bit number, and [azure_file_read]
    finds its connection.  A call
    that does not return 0 hands out no handle and leaves the store as it
    was. *)
Theorem azure_file_open_handle_usable :
  ∀ (s : azure_store) (p : addr) (n : string) (file_type flags : Z)
    (r : result (option addr)),
    reachable s → azure_file_open s p n file_type flags = Some r →
    (ret r ≠ 0 → out r = None ∧ post r = s)
    ∧ (out r = None → post r = s)
    ∧ ∀ a, out r = Some a →
        ret r = 0
        ∧ ∃ h afs conn size,
            file_handles (post r) !! a = Some h ∧ name h = n ∧ fh_fs h = p
            ∧ file_systems (post r) !! p = Some afs ∧ a ∈ azure_fh afs
            ∧ azure_conn afs = Some conn
            ∧ object_exists conn n = (0, true, size)
            ∧ azure_file_size (post r) a
              = Some (Result 0 (post r) (wt_off_t_of_size_t size) [])
            ∧ ∀ offset len, is_Some (azure_file_read (post r) a offset len).
Proof.
  intros s p n file_type flags r Hreach Hopen.
  pose proof (reachable_owned s Hreach) as [Hlisted _].
  unfold azure_file_open in Hopen.
  destruct (_ || _); [injection Hopen as <-; simpl; repeat split; auto; discriminate |].
  destruct (_ && _); [injection Hopen as <-; simpl; repeat split; auto; discriminate |].
  destruct (file_systems s !! p) as [afs |] eqn:Hp; simpl in Hopen; [| discriminate].
  destruct (azure_conn afs) as [conn |] eqn:Hconn; simpl in Hopen; [| discriminate].
  destruct (object_exists conn n) as [[ret0 ex] size] eqn:Hex.
  destruct (ret0 =? 0) eqn:Hret0; simpl in Hopen;
    [| injection Hopen as <-; simpl; repeat split; auto; discriminate].
  apply Z.eqb_eq in Hret0. subst ret0.
  destruct ex; simpl in Hopen;
    [| injection Hopen as <-; simpl; repeat split; auto; discriminate].
  destruct (find_if_name (file_handles s) n (azure_fh afs)) as [a' |] eqn:Hfind.
  - destruct (file_handles s !! a') as [h |] eqn:Ha; simpl in Hopen; [| discriminate].
    injection Hopen as <-. simpl.
    split; [intros Hne; contradiction |]. split; [discriminate |].
    intros a [= <-]. split; [reflexivity |].
    destruct (find_if_name_Some _ _ _ _ Hfind) as (Hin & h0 & Hh0 & Hname).
    destruct (Hlisted p afs a' Hp Hin) as (h1 & Hh1 & Hfs).
    assert (h0 = h) as -> by congruence. assert (h1 = h) as -> by congruence.
    set (h' := set_reference_count h (uint32_incr (reference_count h))).
    assert (file_handles (set_file_handles s (<[a' := h']> (file_handles s))) !! a' = Some h')
      as Hnew by apply lookup_insert_eq.
    exists h', afs, conn, size.
    split; [exact Hnew |]. split; [exact Hname |]. split; [exact Hfs |].
    split; [exact Hp |]. split; [exact Hin |]. split; [exact Hconn |].
    split; [exact Hex |].
    apply (azure_file_handle_usable _ a' h' afs conn size Hnew).
    + change (fh_fs h') with (fh_fs h). rewrite Hfs. exact Hp.
    + exact Hconn.
    + change (name h') with (name h). rewrite Hname. exact Hex.
  - destruct (heap_exhausted s);
      [injection Hopen as <-; simpl; repeat split; auto; discriminate |].
    injection Hopen as <-. simpl.
    split; [intros Hne; contradiction |]. split; [discriminate |].
    intros a [= <-]. split; [reflexivity |].
    set (a := fresh (dom (file_handles s))).
    set (h' := {| fh := azure_file_handle_table n; fh_fs := p; name := n;
                  reference_count := 1 |}).
    set (afs' := set_azure_fh afs (azure_fh afs ++ [a])).
    set (s' := set_file_systems (set_file_handles s (<[a := h']> (file_handles s)))
                 (<[p := afs']> (file_systems s))).
    assert (file_handles s' !! a = Some h') as Hnew by apply lookup_insert_eq.
    assert (file_systems s' !! p = Some afs') as Hp' by apply lookup_insert_eq.
    exists h', afs', conn, size.
    split; [exact Hnew |]. split; [reflexivity |]. split; [reflexivity |].
    split; [exact Hp' |].
    split; [apply elem_of_app; right; apply list_elem_of_singleton; reflexivity |].
    split; [exact Hconn |]. split; [exact Hex |].
    apply (azure_file_handle_usable s' a h' afs' conn size Hnew Hp' Hconn Hex).
Qed.

End LifecycleResults.

(** ** The further requests on the concrete platform

    Listing gives the names of the bucket that start with the prefix; reading
    succeeds inside the object and fails with 416 past its end, with 404 for
    a missing object and with -1 when no request reaches Azure. *)
Definition bucket_list_objects (b : bucket) (prefix : string) (single : bool)
    : Z * list string :=
  if online b then
    let names := filter (λ n, String.prefix prefix n = true) (map_to_list (blobs b)).*1 in
    (0, if single then take 1 names else names)
  else (-1, []).

Definition bucket_read_object (b : bucket) (n : string) (offset len : Z)
    : Z * list Byte.byte :=
  if online b then
    match blobs b !! n with
    | Some size =>
        if (0 <=? offset) && (offset + len <=? size)
        then (0, replicate (Z.to_nat len) Byte.x00)
        else (416, [])
    | None => (404, [])
    end
  else (-1, []).

#[local] Instance linux_requests : @Requests linux_platform := {|
  list_objects := bucket_list_objects;
  read_object := bucket_read_object;
  add_storage_source := 0;
|}.

Definition reachable_bucket : bucket :=
  {| blobs := {[ "WiredTiger.wt" := 4096 ]}; online := true |}.

Definition reachable_file_system (handles : list nat) : azure_file_system :=
  @Build_azure_file_system linux_platform azure_file_system_table ["/data/table.wt"]
    handles (Some reachable_bucket) "/data".

Definition open_handle : azure_file_handle :=
  Build_azure_file_handle (azure_file_handle_table "WiredTiger.wt")
    0%nat "WiredTiger.wt" 1.

Lemma azure_file_read_returns_zero_or_one_witness :
  ∃ r, azure_file_read open_store 0%nat 4000 200 = Some r
       ∧ ret r = 1
       ∧ read_object reachable_bucket "WiredTiger.wt" 4000 200 = (416, []).
Proof.
  destruct (azure_file_read_returns_zero_or_one open_store 0%nat open_handle
              (reachable_file_system [0%nat]) reachable_bucket 4000 200)
    as (r & Hread & _ & _ & _ & Hfail); try (vm_compute; reflexivity).
  exists r. split; [exact Hread |]. split; [| reflexivity].
  apply Hfail. vm_compute. discriminate.
Defined.

Lemma azure_flush_finish_ignores_absence_witness :
  ∃ r, azure_flush_finish reachable_store 0%nat "/data/table.wt" "table.wt" "" = Some r
       ∧ ret r = 0
       ∧ blobs reachable_bucket !! "table.wt" = None.
Proof.
  destruct (azure_flush_finish_ignores_absence reachable_store 0%nat
              "/data/table.wt" "table.wt" "" false) as (r & Hfinish & Hret & _).
  { exists (reachable_file_system []), reachable_bucket, 0.
    repeat split; vm_compute; reflexivity. }
  exists r. split; [exact Hfinish |]. split; [exact Hret | reflexivity].
Defined.

Lemma azure_flush_failure_leaves_store_witness :
  ∃ r, azure_flush reachable_store 0%nat "/data/missing.wt" "missing.wt" "" = Some r
       ∧ ret r = 2 ∧ post r = reachable_store.
Proof.
  eexists. split; [vm_compute; reflexivity |].
  destruct (azure_flush_failure_leaves_store reachable_store 0%nat
              "/data/missing.wt" "missing.wt" "" _ eq_refl) as (_ & Hdisk & _).
  apply Hdisk. reflexivity.
Defined.

(** A store whose bucket holds an object of 2^63 bytes, with a handle on it. *)
Definition huge_bucket : bucket :=
  {| blobs := <["huge.wt" := 2 ^ 63]> ∅; online := true |}.

Definition huge_file_system : azure_file_system :=
  @Build_azure_file_system linux_platform azure_file_system_table ["/data/table.wt"]
    [0%nat] (Some huge_bucket) "/data".

Definition huge_handle : azure_file_handle :=
  Build_azure_file_handle (azure_file_handle_table "huge.wt") 0%nat "huge.wt" 1.

Definition huge_store : azure_store :=
  {| azure_fs := [0%nat]; store_reference_count := 1;
     file_systems := <[0%nat := huge_file_system]> ∅;
     file_handles := <[0%nat := huge_handle]> ∅;
     heap_exhausted := false |}.

Lemma azure_file_size_agrees_with_object_size_witness :
  (∃ r r', azure_object_size open_store 0%nat "WiredTiger.wt" = Some r
           ∧ azure_file_size open_store 0%nat = Some r'
           ∧ out r' = out r ∧ out r = 4096)
  ∧ (∃ r r', azure_object_size huge_store 0%nat "huge.wt" = Some r
             ∧ azure_file_size huge_store 0%nat = Some r'
             ∧ ret r' = 0 ∧ out r' = - 2 ^ 63).
Proof.
  split.
  - destruct (azure_file_size_agrees_with_object_size open_store 0%nat open_handle
                (reachable_file_system [0%nat]) reachable_bucket 0 true 4096)
      as (r & r' & Hobject & Hfile & _ & Hout & _ & _ & Hok & _);
      try (vm_compute; reflexivity).
    exists r, r'. split; [exact Hobject |]. split; [exact Hfile |].
    split; [exact Hout |]. apply (Hok eq_refl). lia.
  - destruct (azure_file_size_agrees_with_object_size huge_store 0%nat huge_handle
                huge_file_system huge_bucket 0 true (2 ^ 63))
      as (r & r' & Hobject & Hfile & Hret & Hout & _ & _ & Hok & _);
      try (vm_compute; reflexivity).
    exists r, r'. split; [exact Hobject |]. split; [exact Hfile |].
    destruct (Hok eq_refl) as (Hzero & _ & Hlarge).
    split; [congruence |]. rewrite Hout.
    destruct Hlarge as [Hsize _]; [lia |]. rewrite Hsize. reflexivity.
Defined.

Lemma azure_add_reference_guards_witness :
  ret (azure_add_reference initial_store) = 0
  ∧ store_reference_count (post (azure_add_reference initial_store)) = 2
  ∧ ret (azure_add_reference (set_store_reference_count initial_store (2 ^ 32 - 1))) = 22.
Proof.
  destruct (azure_add_reference_guards initial_store) as (_ & Hadd & _);
    [cbn; lia |].
  destruct (azure_add_reference_guards
              (set_store_reference_count initial_store (2 ^ 32 - 1))) as (Hrefuse & _);
    [cbn; lia |].
  destruct Hadd as [Hret Hpost]; [cbn; lia |].
  split; [exact Hret |]. split; [rewrite Hpost; reflexivity |].
  apply Hrefuse. right. reflexivity.
Defined.

Lemma azure_terminate_undoes_add_reference_witness :
  azure_terminate (post (azure_add_reference reachable_store))
  = Some (Result 0 reachable_store false []).
Proof.
  apply azure_terminate_undoes_add_reference. cbn. lia.
Defined.

Lemma reachable_store_listed_live : listed_live reachable_store.
Proof.
  unfold listed_live. apply Forall_forall. intros q Hq.
  vm_compute in Hq. apply list_elem_of_singleton in Hq. subst q.
  vm_compute. eauto.
Qed.

Lemma azure_terminate_last_reference_witness :
  ∃ r, azure_terminate reachable_store = Some r
       ∧ out r = true ∧ azure_fs (post r) = []
       ∧ file_systems (post r) !! 0%nat = None.
Proof.
  destruct (azure_terminate_last_reference reachable_store)
    as (r & Hterminate & _ & Hout & Hempty & Hgone & _);
    [reflexivity | exact reachable_store_listed_live |].
  exists r. split; [exact Hterminate |]. split; [exact Hout |]. split; [exact Hempty |].
  apply Hgone. vm_compute. left.
Defined.

Lemma initial_store_listed_live : listed_live initial_store.
Proof. constructor. Qed.

Lemma azure_customize_then_terminate_witness :
  ∃ r', azure_file_system_terminate reachable_store 0%nat = Some r'
        ∧ azure_fs (post r') = [] ∧ file_systems (post r') = ∅.
Proof.
  destruct (azure_customize_then_terminate initial_store (Some "bucket") "" ""
              initial_store_listed_live) as (_ & _ & Hnew).
  destruct (Hnew 0%nat) as (_ & _ & _ & _ & _ & r' & Hterminate & _ & Hlist & Hsystems & _);
    [vm_compute; reflexivity |].
  exists r'. split; [exact Hterminate |]. split; [exact Hlist | exact Hsystems].
Defined.


Lemma reachable_handles_owned_witness :
  handles_owned open_store
  ∧ fh_write (fh open_handle) = None
  ∧ file_handles open_store !! 0%nat = Some open_handle.
Proof.
  destruct (reachable_handles_owned open_store open_store_reachable) as [Howned Htable].
  split; [exact Howned |].
  destruct (Htable 0%nat open_handle) as (Hwrite & _); [vm_compute; reflexivity |].
  split; [exact Hwrite | vm_compute; reflexivity].
Defined.

Definition closed_store : azure_store :=
  match azure_file_close open_store 0%nat with
  | Some r => post r
  | None => open_store
  end.

Lemma azure_file_close_again_wraps_witness :
  ∃ r, azure_file_close closed_store 0%nat = Some r
       ∧ ret r = 0
       ∧ file_handles (post r) !! 0%nat
         = Some (set_reference_count open_handle (2 ^ 32 - 1))
       ∧ azure_fh <$> file_systems (post r) !! 0%nat = Some [].
Proof.
  destruct (azure_file_close_again_wraps closed_store 0%nat (set_reference_count open_handle 0))
    as (r & Hclose & Hret & _ & Hsystems & _ & Hcount & _);
    try (vm_compute; reflexivity).
  exists r. split; [exact Hclose |]. split; [exact Hret |]. split; [exact Hcount |].
  rewrite Hsystems. vm_compute. reflexivity.
Defined.

Lemma azure_file_open_handle_usable_witness :
  ∃ r, azure_file_open reachable_store 0%nat "WiredTiger.wt" 1 256 = Some r
       ∧ ret r = 0
       ∧ azure_file_size (post r) 0%nat = Some (Result 0 (post r) 4096 []).
Proof.
  eexists.
  destruct (azure_file_open_handle_usable reachable_store 0%nat "WiredTiger.wt" 1 256 _
              (reachable_customize initial_store (Some "bucket") "" "" reachable_init)
              eq_refl) as (_ & _ & Hhandle).
  destruct (Hhandle 0%nat eq_refl)
    as (Hret & h & afs & conn & size & _ & _ & _ & Hfs & _ & Hconn & Hex & Hsize & _).
  split; [reflexivity |]. split; [exact Hret |].
  vm_compute in Hfs. injection Hfs as <-.
  vm_compute in Hconn. injection Hconn as <-.
  vm_compute in Hex. injection Hex as <-.
  exact Hsize.
Defined.

Lemma azure_file_open_then_close_witness :
  ∃ r1 r2, azure_file_open open_store 0%nat "WiredTiger.wt" 1 256 = Some r1
           ∧ azure_file_close (post r1) 0%nat = Some r2
           ∧ file_systems (post r2) = file_systems open_store
           ∧ file_handles (post r2) !! 0%nat = Some open_handle.
Proof.
  eexists.
  destruct (azure_file_open_then_close open_store 0%nat "WiredTiger.wt" 1 256 _ 0%nat
              open_store_reachable eq_refl eq_refl)
    as (r2 & Hclose & _ & Hsystems & _ & _ & Hsame & _).
  { intros h Hh. vm_compute in Hh. injection Hh as <-. vm_compute. discriminate. }
  exists r2. split; [reflexivity |]. split; [exact Hclose |]. split; [exact Hsystems |].
  apply Hsame. vm_compute. reflexivity.
Defined.

End Azure.

(* ===================================================================== *)
(** * Part 2: collection_yield_restore.cpp *)
(* ===================================================================== *)
Module YieldRestore.

(** The classes the callable works on live in other files of the server
    (namespace_string.h, collection.h, collection_catalog.h, locker.h,
    capped_snapshots.h, snapshot_helper.h); they are parameters here.  State
    that the C++ reaches through [opCtx] is passed and returned explicitly. *)
Class Server := {
  NamespaceString : Type;
  NamespaceString_eq_dec :: EqDecision NamespaceString;
  (* NamespaceString() and NamespaceString::isEmpty *)
  NamespaceString_default : NamespaceString;
  isEmpty : NamespaceString → bool;
  UUID : Type;
  LockMode : Type;
  MODE_IS : LockMode;
  (* a Collection instance: Collection::ns, Collection::usesCappedSnapshots *)
  Collection : Type;
  ns : Collection → NamespaceString;
  usesCappedSnapshots : Collection → bool;
  OperationContext : Type;
  (* opCtx->lockState()->isCollectionLockedForMode *)
  isCollectionLockedForMode : OperationContext → NamespaceString → LockMode → bool;
  (* CollectionCatalog::get(opCtx)->lookupCollectionByUUIDForRead; [None] is
     an empty pointer *)
  lookupCollectionByUUIDForRead : OperationContext → UUID → option Collection;
  (* CappedSnapshots::get(opCtx).establish *)
  CappedSnapshots_establish : OperationContext → Collection → OperationContext;
  (* SnapshotHelper::changeReadSourceIfNeeded *)
  changeReadSourceIfNeeded : OperationContext → NamespaceString → OperationContext;
}.

(** A call either returns or trips an [invariant], which ends the process. *)
Inductive outcome (A : Type) :=
  | Returns (a : A)
  | InvariantFailure.
Global Arguments Returns {A} _.
Global Arguments InvariantFailure {A}.

Section Model.
Context `{S : Server}.

Record LockedCollectionYieldRestore := { _nss : NamespaceString }.

(** The constructor (lines 37-43); [coll] is [None] for an empty CollectionPtr. *)
Definition LockedCollectionYieldRestore_new (opCtx : OperationContext)
    (coll : option Collection) : outcome LockedCollectionYieldRestore :=
  let nss := match coll with Some c => ns c | None => NamespaceString_default end in
  if negb (isEmpty nss) && negb (isCollectionLockedForMode opCtx nss MODE_IS)
  then InvariantFailure
  else Returns {| _nss := nss |}.

(** operator() (lines 45-82): the pointer returned ([None] for nullptr) and the
    operation context afterwards. *)
Definition operator_call (self : LockedCollectionYieldRestore) (opCtx : OperationContext)
    (uuid : UUID) : outcome (option Collection * OperationContext) :=
  if isEmpty (_nss self) then InvariantFailure
  else if negb (isCollectionLockedForMode opCtx (_nss self) MODE_IS) then InvariantFailure
  else
    match lookupCollectionByUUIDForRead opCtx uuid with
    | None => Returns (None, opCtx)
    | Some collection =>
        if negb (bool_decide (ns collection = _nss self)) then Returns (None, opCtx)
        else
          let opCtx1 := if usesCappedSnapshots collection
                        then CappedSnapshots_establish opCtx collection
                        else opCtx in
          let opCtx2 := changeReadSourceIfNeeded opCtx1 (ns collection) in
          Returns (Some collection, opCtx2)
    end.

(** The two invariants at the head of operator(). *)
Definition invariants_hold (self : LockedCollectionYieldRestore) (opCtx : OperationContext) : Prop :=
  isEmpty (_nss self) = false
  ∧ isCollectionLockedForMode opCtx (_nss self) MODE_IS = true.

(** The collection of that UUID is gone from the catalog. *)
Definition dropped (opCtx : OperationContext) (uuid : UUID) : Prop :=
  lookupCollectionByUUIDForRead opCtx uuid = None.

(** The collection of that UUID now lives under another namespace. *)
Definition renamed (self : LockedCollectionYieldRestore) (opCtx : OperationContext)
    (uuid : UUID) : Prop :=
  ∃ c, lookupCollectionByUUIDForRead opCtx uuid = Some c ∧ ns c ≠ _nss self.

End Model.

Section Results.
Context `{S : Server}.

Lemma operator_call_invariant_failure self opCtx uuid :
  operator_call self opCtx uuid = InvariantFailure ↔ ¬ invariants_hold self opCtx.
Proof.
  unfold operator_call, invariants_hold.
  destruct (isEmpty (_nss self)); [intuition congruence |].
  destruct (isCollectionLockedForMode opCtx (_nss self) MODE_IS); simpl;
    [| intuition congruence].
  destruct (lookupCollectionByUUIDForRead opCtx uuid) as [c |].
  - destruct (negb _); split; try discriminate; intros H; exfalso; apply H; auto.
  - split; try discriminate; intros H; exfalso; apply H; auto.
Qed.

(** C5: operator() first re-validates the namespace captured at construction
    and the collection lock (an invariant failure otherwise); when these hold
    it returns, after fetching the collection by UUID, and the pointer is null
    exactly when the collection was dropped or its namespace differs from the
    captured one, in which case nothing else was touched; a non-null pointer
    is the collection found, handed back after the capped snapshot was
    re-established (when the collection uses one) and the read source was
    checked again, in this order. *)
Theorem yield_restore_returns_collection_or_null :
  ∀ (self : LockedCollectionYieldRestore) (opCtx : OperationContext) (uuid : UUID),
    (operator_call self opCtx uuid = InvariantFailure ↔ ¬ invariants_hold self opCtx)
    ∧ (invariants_hold self opCtx →
       ∃ ptr opCtx',
         operator_call self opCtx uuid = Returns (ptr, opCtx')
         ∧ (ptr = None ↔ dropped opCtx uuid ∨ renamed self opCtx uuid)
         ∧ (ptr = None → opCtx' = opCtx)
         ∧ (∀ c, ptr = Some c →
              lookupCollectionByUUIDForRead opCtx uuid = Some c
              ∧ ns c = _nss self
              ∧ opCtx' = changeReadSourceIfNeeded
                           (if usesCappedSnapshots c
                            then CappedSnapshots_establish opCtx c else opCtx)
                           (_nss self))).
Proof.
  intros self opCtx uuid. split; [apply operator_call_invariant_failure |].
  intros [Hnss Hlock]. unfold operator_call, dropped, renamed.
  rewrite Hnss, Hlock. simpl.
  destruct (lookupCollectionByUUIDForRead opCtx uuid) as [c |] eqn:Hlookup.
  - destruct (decide (ns c = _nss self)) as [Hns | Hns].
    + rewrite bool_decide_eq_true_2 by assumption. simpl.
      eexists _, _. split; [reflexivity |]. split; [| split].
      * split; [discriminate |].
        intros [Hd | (c' & [= <-] & Hne)]; [discriminate | contradiction].
      * discriminate.
      * intros c' [= <-]. rewrite Hns. auto.
    + rewrite bool_decide_eq_false_2 by assumption. simpl.
      eexists _, _. split; [reflexivity |]. split; [| split].
      * split; [| reflexivity]. intros _. right. eauto.
      * reflexivity.
      * discriminate.
  - eexists _, _. split; [reflexivity |]. split; [| split].
    + split; [auto | reflexivity].
    + reflexivity.
    + discriminate.
Qed.

End Results.

(** ** A small server for examples

    Namespaces are strings, the catalog is a list of collections by UUID, and
    the operation context records the namespaces locked in MODE_IS, the
    capped snapshots established and the read-source checks made. *)
Record sample_collection := { coll_ns : string; coll_capped : bool }.

Record sample_context := {
  locked : list string;
  catalog : list (nat * sample_collection);
  established : list string;
  read_source_checks : list string;
}.

#[local] Instance sample_server : Server := {|
  NamespaceString := string;
  NamespaceString_default := "";
  isEmpty := λ nss, String.eqb nss "";
  UUID := nat;
  LockMode := unit;
  MODE_IS := ();
  Collection := sample_collection;
  ns := coll_ns;
  usesCappedSnapshots := coll_capped;
  OperationContext := sample_context;
  isCollectionLockedForMode := λ opCtx nss _, bool_decide (nss ∈ locked opCtx);
  lookupCollectionByUUIDForRead := λ opCtx uuid,
    (λ found, found.2.2) <$> list_find (λ entry, entry.1 = uuid) (catalog opCtx);
  CappedSnapshots_establish := λ opCtx c,
    {| locked := locked opCtx; catalog := catalog opCtx;
       established := coll_ns c :: established opCtx;
       read_source_checks := read_source_checks opCtx |};
  changeReadSourceIfNeeded := λ opCtx nss,
    {| locked := locked opCtx; catalog := catalog opCtx;
       established := established opCtx;
       read_source_checks := nss :: read_source_checks opCtx |};
|}.

Definition sample_restore : LockedCollectionYieldRestore := {| _nss := "db.events" |}.

Definition context_after_yield (c : sample_collection) : sample_context :=
  {| locked := ["db.events"]; catalog := [(7%nat, c)]; established := [];
     read_source_checks := [] |}.

Example restore_same_namespace :
  operator_call sample_restore
    (context_after_yield {| coll_ns := "db.events"; coll_capped := true |}) 7%nat
  = Returns (Some {| coll_ns := "db.events"; coll_capped := true |},
             {| locked := ["db.events"];
                catalog := [(7%nat, {| coll_ns := "db.events"; coll_capped := true |})];
                established := ["db.events"];
                read_source_checks := ["db.events"] |}).
Proof. vm_compute. reflexivity. Qed.

Example restore_after_rename :
  operator_call sample_restore
    (context_after_yield {| coll_ns := "db.archive"; coll_capped := true |}) 7%nat
  = Returns (None, context_after_yield {| coll_ns := "db.archive"; coll_capped := true |}).
Proof. vm_compute. reflexivity. Qed.

Example restore_after_drop :
  operator_call sample_restore
    (context_after_yield {| coll_ns := "db.events"; coll_capped := false |}) 8%nat
  = Returns (None, context_after_yield {| coll_ns := "db.events"; coll_capped := false |}).
Proof. vm_compute. reflexivity. Qed.

Example restore_without_lock :
  operator_call sample_restore
    {| locked := []; catalog := []; established := []; read_source_checks := [] |} 7%nat
  = InvariantFailure.
Proof. vm_compute. reflexivity. Qed.

(** ** The constructor and operator() together *)
Section Construction.
Context `{S : Server}.

Lemma LockedCollectionYieldRestore_new_nss opCtx coll self :
  LockedCollectionYieldRestore_new opCtx coll = Returns self →
  _nss self = match coll with Some c => ns c | None => NamespaceString_default end
  ∧ (isEmpty (_nss self) = false →
     isCollectionLockedForMode opCtx (_nss self) MODE_IS = true).
Proof.
  unfold LockedCollectionYieldRestore_new.
  set (nss := match coll with Some c => ns c | None => NamespaceString_default end).
  destruct (isEmpty nss) eqn:Hempty; simpl.
  - intros [= <-]. simpl. split; [reflexivity | congruence].
  - destruct (isCollectionLockedForMode opCtx nss MODE_IS) eqn:Hlock; simpl;
      [| discriminate].
    intros [= <-]. simpl. auto.
Qed.

(** X15: with the default namespace empty, the constructor accepts an empty
    collection pointer whatever the locks are, and every later call of
    operator() on the object built trips the first invariant. *)
Theorem restore_from_empty_pointer_never_callable :
  ∀ (opCtx : OperationContext), isEmpty NamespaceString_default = true →
    ∃ self, LockedCollectionYieldRestore_new opCtx None = Returns self
      ∧ ∀ opCtx' uuid, operator_call self opCtx' uuid = InvariantFailure.
Proof.
  intros opCtx Hempty. unfold LockedCollectionYieldRestore_new. rewrite Hempty. simpl.
  eexists. split; [reflexivity |].
  intros opCtx' uuid. unfold operator_call. simpl. rewrite Hempty. reflexivity.
Qed.

(** X16: for an object constructed from a collection, a collection that
    operator() returns is the one the catalog has under the UUID, lives under
    the namespace the constructor saw, and that namespace is not empty, was
    locked in MODE_IS at construction and is locked in MODE_IS at the call;
    conversely, when the namespace is not empty and still locked and the
    catalog has a collection of that namespace under the UUID, operator()
    returns that collection. *)
Theorem restore_returns_collection_of_locked_namespace :
  ∀ (opCtx0 : OperationContext) (c0 : Collection) (self : LockedCollectionYieldRestore)
    (opCtx : OperationContext) (uuid : UUID),
    LockedCollectionYieldRestore_new opCtx0 (Some c0) = Returns self →
    (∀ c opCtx', operator_call self opCtx uuid = Returns (Some c, opCtx') →
       lookupCollectionByUUIDForRead opCtx uuid = Some c
       ∧ ns c = ns c0
       ∧ isEmpty (ns c) = false
       ∧ isCollectionLockedForMode opCtx0 (ns c) MODE_IS = true
       ∧ isCollectionLockedForMode opCtx (ns c) MODE_IS = true)
    ∧ (∀ c, isEmpty (ns c0) = false →
         isCollectionLockedForMode opCtx (ns c0) MODE_IS = true →
         lookupCollectionByUUIDForRead opCtx uuid = Some c → ns c = ns c0 →
         ∃ opCtx', operator_call self opCtx uuid = Returns (Some c, opCtx')).
Proof.
  intros opCtx0 c0 self opCtx uuid Hnew.
  destruct (LockedCollectionYieldRestore_new_nss _ _ _ Hnew) as [Hnss Hlock0].
  split.
  - intros c opCtx'. unfold operator_call.
    destruct (isEmpty (_nss self)) eqn:Hempty; [discriminate |].
    destruct (isCollectionLockedForMode opCtx (_nss self) MODE_IS) eqn:Hlock; simpl;
      [| discriminate].
    destruct (lookupCollectionByUUIDForRead opCtx uuid) as [c' |]; [| discriminate].
    destruct (decide (ns c' = _nss self)) as [Hns | Hns].
    + rewrite bool_decide_eq_true_2 by assumption. simpl. intros [= <- _].
      rewrite Hns. split; [reflexivity |]. split; [exact Hnss |]. auto.
    + rewrite bool_decide_eq_false_2 by assumption. simpl. discriminate.
  - intros c Hempty Hlock Hlookup Hns. unfold operator_call.
    rewrite Hnss, Hempty, Hlock, Hlookup. simpl.
    rewrite bool_decide_eq_true_2 by assumption. simpl. eexists. reflexivity.
Qed.

End Construction.

Definition events_collection : sample_collection :=
  {| coll_ns := "db.events"; coll_capped := true |}.

Lemma restore_from_empty_pointer_never_callable_witness :
  ∃ self, @LockedCollectionYieldRestore_new sample_server
            (context_after_yield events_collection) None = Returns self
          ∧ operator_call self (context_after_yield events_collection) 7%nat
            = InvariantFailure.
Proof.
  destruct (@restore_from_empty_pointer_never_callable sample_server
              (context_after_yield events_collection) eq_refl) as (self & Hnew & Hcall).
  exists self. split; [exact Hnew | apply Hcall].
Defined.

Lemma restore_returns_collection_of_locked_namespace_witness :
  ∃ opCtx', operator_call sample_restore (context_after_yield events_collection) 7%nat
            = Returns (Some events_collection, opCtx').
Proof.
  destruct (@restore_returns_collection_of_locked_namespace sample_server
              (context_after_yield events_collection) events_collection sample_restore
              (context_after_yield events_collection) 7%nat eq_refl) as [_ Hback].
  apply Hback; reflexivity.
Defined.

End YieldRestore.

(* ===================================================================== *)
(** * Part 3: opt_phase_manager.h *)
(* ===================================================================== *)
Module Optimizer.

(** ** The phases (lines 51-72)

    [MAKE_PRINTABLE_ENUM(OptPhase, OPT_PHASE)] declares the enumeration with
    the entries of [OPT_PHASE] in the order of the macro, and
    [MAKE_PRINTABLE_ENUM_STRING_ARRAY] the array of their names. *)
Inductive OptPhase :=
  | ConstEvalPre
  | PathFuse
  | MemoSubstitutionPhase
  | MemoExplorationPhase
  | MemoImplementationPhase
  | PathLower
  | ConstEvalPost.

(** The entries of [OPT_PHASE], in the order the macro lists them. *)
Definition OPT_PHASE : list OptPhase :=
  [ConstEvalPre; PathFuse; MemoSubstitutionPhase; MemoExplorationPhase;
   MemoImplementationPhase; PathLower; ConstEvalPost].

(** The value of an enumerator: its position in the macro. *)
Definition OptPhase_value (p : OptPhase) : nat :=
  match p with
  | ConstEvalPre => 0
  | PathFuse => 1
  | MemoSubstitutionPhase => 2
  | MemoExplorationPhase => 3
  | MemoImplementationPhase => 4
  | PathLower => 5
  | ConstEvalPost => 6
  end.

Definition OptPhase_of_value (n : nat) : OptPhase :=
  match n with
  | 0 => ConstEvalPre
  | 1 => PathFuse
  | 2 => MemoSubstitutionPhase
  | 3 => MemoExplorationPhase
  | 4 => MemoImplementationPhase
  | 5 => PathLower
  | _ => ConstEvalPost
  end%nat.


#[global] Instance OptPhase_eq_dec : EqDecision OptPhase.
Proof. solve_decision. Defined.

#[global] Instance OptPhase_countable : Countable OptPhase.
Proof.
  apply (inj_countable' OptPhase_value OptPhase_of_value).
  intros []; reflexivity.
Defined.

(** [using PhaseSet = opt::unordered_set<OptPhase>] (line 76). *)
Abbreviation PhaseSet := (gset OptPhase).

(** ** Expression trees and the memo

    The header only includes the files that declare them. *)

Abbreviation GroupIdType := nat (only parsing).

(** Modelled from the spec: the expression tree of section 3 (type ABT, whose
    declaration is in another file), a tagged variant over leaves (constants
    and variables), references to memo groups, and path steps and logical
    operators with their children. *)
#[warnings="-register-all"]
Inductive ABT :=
  | Constant (value : Z)
  | Var (name : string)
  | MemoLogicalDelegator (group : GroupIdType)
  | Operator (tag : string) (children : list ABT).

(** Structural equality: same shape, same leaf values, same group references. *)
Fixpoint ABT_eqb (a b : ABT) : bool :=
  match a, b with
  | Constant x, Constant y => (x =? y)%Z
  | Var x, Var y => String.eqb x y
  | MemoLogicalDelegator g, MemoLogicalDelegator g' => Nat.eqb g g'
  | Operator t c, Operator t' c' =>
      String.eqb t t'
      && (fix all_eqb (l l' : list ABT) : bool :=
            match l, l' with
            | [], [] => true
            | x :: k, y :: k' => ABT_eqb x y && all_eqb k k'
            | _, _ => false
            end) c c'
  | _, _ => false
  end.

(** Induction over trees with the hypothesis on every child. *)
Fixpoint ABT_children_ind (Q : ABT → Prop)
    (HC : ∀ v, Q (Constant v)) (HV : ∀ n, Q (Var n))
    (HG : ∀ g, Q (MemoLogicalDelegator g))
    (HO : ∀ t c, Forall Q c → Q (Operator t c)) (a : ABT) : Q a :=
  match a with
  | Constant v => HC v
  | Var n => HV n
  | MemoLogicalDelegator g => HG g
  | Operator t c =>
      HO t c ((fix children (l : list ABT) : Forall Q l :=
                 match l with
                 | [] => @List.Forall_nil ABT Q
                 | x :: k => @List.Forall_cons ABT Q x k (ABT_children_ind Q HC HV HG HO x) (children k)
                 end) c)
  end.

Section Memo.

(** Modelled from the spec: the logical properties of a group and their
    derivation "from its children's groups" (section 4.2), the requested
    physical properties and the cost of a winner (section 3); their
    declarations are in files the header includes. *)
Context {LogicalProps PhysProps : Type}.
Context (deriveLogicalProps : ABT → list LogicalProps → LogicalProps).

(** Modelled from the spec: a group of section 3, "a set of logical
    expression alternatives", "a derived logical-properties record" and the
    winners by requested physical properties. *)
Record Group := {
  logicalNodes : list ABT;
  logicalProps : LogicalProps;
  winners : list (PhysProps * (ABT * Z));
}.

(** The logical properties of the groups the children of [e] refer to. *)
Definition childGroupProps (m : list Group) (e : ABT) : list LogicalProps :=
  match e with
  | Operator _ c =>
      omap (λ x, match x with
                 | MemoLogicalDelegator g => logicalProps <$> m !! g
                 | _ => None
                 end) c
  | _ => []
  end.

(** Modelled from the spec: Memo::insert of section 4.2 (memo.h and memo.cpp
    are not among the files), over the memo as "a dense arena addressed by
    integer handle": "if an equivalent expression already exists in some
    group, returns that group's id without adding a duplicate; otherwise
    creates a new group, derives its logical properties from its children's
    groups, and returns the new id". *)
Definition insert (e : ABT) (m : list Group) : GroupIdType * list Group :=
  match list_find (λ g, existsb (ABT_eqb e) (logicalNodes g) = true) m with
  | Some (gid, _) => (gid, m)
  | None =>
      (length m,
       (m ++ [{| logicalNodes := [e];
                 logicalProps := deriveLogicalProps e (childGroupProps m e);
                 winners := [] |}])%list)
  end.




End Memo.

(** ** The phase manager (lines 74-239) *)

(** The types the class names and other files declare, with the values its
    members hold before an optimization has run. *)
Class Interfaces := {
  Metadata : Type;
  QueryHints : Type;
  DebugInfo : Type;
  CardinalityEstimator : Type;
  CostEstimator : Type;
  LogicalPropsInterface : Type;
  PathToIntervalFn : Type;
  ConstFoldFn : Type;
  MemoPhysicalNodeId : Type;
  NodeToGroupPropsMap : Type;
  RIDProjectionsMap : Type;
  LogicalProperties : Type;
  PhysProperties : Type;
  MemoPhysicalNodeId_default : MemoPhysicalNodeId;
  NodeToGroupPropsMap_empty : NodeToGroupPropsMap;
  RIDProjectionsMap_empty : RIDProjectionsMap;
  LogicalPropsInterface_default : LogicalPropsInterface;
}.

(** Addresses of the caller's objects that the class refers to. *)
Abbreviation loc := positive (only parsing).




(** The special member functions of a class and how lines 91-95 declare them. *)
Inductive special_member :=
  | CopyConstructor
  | MoveConstructor
  | CopyAssignment
  | MoveAssignment.

Inductive declaration := Deleted | Defaulted.

Definition OptPhaseManager_declares (m : special_member) : declaration :=
  match m with
  | CopyConstructor => Deleted
  | MoveConstructor => Defaulted
  | CopyAssignment => Deleted
  | MoveAssignment => Deleted
  end.

(** With all four members declared, an lvalue argument selects the copy form
    and an rvalue the move form; a use that selects a deleted function does
    not compile. *)
Inductive value_category := Lvalue | Rvalue.

Definition selected_constructor (arg : value_category) : special_member :=
  match arg with Lvalue => CopyConstructor | Rvalue => MoveConstructor end.

Definition selected_assignment (arg : value_category) : special_member :=
  match arg with Lvalue => CopyAssignment | Rvalue => MoveAssignment end.

Definition compiles (m : special_member) : bool :=
  match OptPhaseManager_declares m with
  | Defaulted => true
  | Deleted => false
  end.

(** How a call ends: it returns, or a tassert ends the run. *)
Inductive call (A : Type) :=
  | Returned (a : A)
  | Aborted.
Global Arguments Returned {A} _.
Global Arguments Aborted {A}.

(** How far the pipeline got. *)
Inductive run (A : Type) :=
  | Done (a : A)
  | NoPlan (a : A)
  | Fatal.
Global Arguments Done {A} _.
Global Arguments NoPlan {A} _.
Global Arguments Fatal {A}.

Section PhaseManager.
Context `{I : Interfaces}.

(** The data members (lines 156-238).  A unique_ptr is an option, the
    reference [_prefixId] is the address of the caller's generator. *)
Record OptPhaseManager := {
  _phaseSet : PhaseSet;
  _supportExplain : bool;
  _debugInfo : DebugInfo;
  _hints : QueryHints;
  _metadata : Metadata;
  _memo : list (@Group LogicalProperties PhysProperties);
  _logicalPropsDerivation : option LogicalPropsInterface;
  _explorationCE : option CardinalityEstimator;
  _substitutionCE : option CardinalityEstimator;
  _costEstimator : option CostEstimator;
  _pathToInterval : PathToIntervalFn;
  _constFold : ConstFoldFn;
  _physicalNodeId : MemoPhysicalNodeId;
  _postMemoPlan : option ABT;
  _nodeToGroupPropsMap : NodeToGroupPropsMap;
  _requireRID : bool;
  _ridProjections : RIDProjectionsMap;
  _prefixId : loc;
}.

(** Modelled from the spec: the constructor declared at lines 78-89 (its body
    is in opt_phase_manager.cpp); the arguments become the configuration, the
    reference is kept, and "the memo, winners, and properties map are created
    empty at construction". *)
Definition OptPhaseManager_new (phaseSet : PhaseSet) (prefixId : loc) (requireRID : bool)
    (metadata : Metadata) (explorationCE substitutionCE : option CardinalityEstimator)
    (costEstimator : option CostEstimator) (pathToInterval : PathToIntervalFn)
    (constFold : ConstFoldFn) (supportExplain : bool) (debugInfo : DebugInfo)
    (queryHints : QueryHints) : OptPhaseManager :=
  {| _phaseSet := phaseSet;
     _supportExplain := supportExplain;
     _debugInfo := debugInfo;
     _hints := queryHints;
     _metadata := metadata;
     _memo := [];
     _logicalPropsDerivation := Some LogicalPropsInterface_default;
     _explorationCE := explorationCE;
     _substitutionCE := substitutionCE;
     _costEstimator := costEstimator;
     _pathToInterval := pathToInterval;
     _constFold := constFold;
     _physicalNodeId := MemoPhysicalNodeId_default;
     _postMemoPlan := None;
     _nodeToGroupPropsMap := NodeToGroupPropsMap_empty;
     _requireRID := requireRID;
     _ridProjections := RIDProjectionsMap_empty;
     _prefixId := prefixId |}.

(** The defaulted move constructor (line 93): the new object, member by
    member; the reference member is bound to the same generator. *)
Definition OptPhaseManager_move (other : OptPhaseManager) : OptPhaseManager :=
  {| _phaseSet := _phaseSet other;
     _supportExplain := _supportExplain other;
     _debugInfo := _debugInfo other;
     _hints := _hints other;
     _metadata := _metadata other;
     _memo := _memo other;
     _logicalPropsDerivation := _logicalPropsDerivation other;
     _explorationCE := _explorationCE other;
     _substitutionCE := _substitutionCE other;
     _costEstimator := _costEstimator other;
     _pathToInterval := _pathToInterval other;
     _constFold := _constFold other;
     _physicalNodeId := _physicalNodeId other;
     _postMemoPlan := _postMemoPlan other;
     _nodeToGroupPropsMap := _nodeToGroupPropsMap other;
     _requireRID := _requireRID other;
     _ridProjections := _ridProjections other;
     _prefixId := _prefixId other |}.


(** [hasPhase] (line 127) on the configured set, a const member. *)
Definition hasPhase (phaseSet : PhaseSet) (phase : OptPhase) : bool :=
  bool_decide (phase ∈ phaseSet).

(** What the physical search hands back. *)
Inductive search :=
  | Winner (self : OptPhaseManager) (plan : ABT)
  | NoPlanFound (self : OptPhaseManager) (tree : ABT)
  | SearchFatal.

(** Modelled from the spec: the rewrites the phases run are in other files;
    section 4 gives what the phase manager sees of them.  A transport pass
    (section 2) changes the tree and says whether it did, a memo logical
    rewrite (section 4.3) runs standalone or integrated, the physical search
    (section 4.4) finds a winner for the root group or none, and then leaves
    the instance and the tree in a state of its choice ("the input tree is
    left unspecified"); each may hit a violated invariant, which is fatal
    (section 7).  [iterationLimit] bounds
    the rounds of the first fixpoint. *)
Context (structuralPass : OptPhase → OptPhaseManager → ABT → option (OptPhaseManager * ABT * bool)).
Context (logicalRewrite : OptPhase → bool → OptPhaseManager → ABT → option (OptPhaseManager * ABT)).
Context (physicalRewrite : OptPhaseManager → ABT → search).
Context (iterationLimit : DebugInfo → nat).

(** Modelled from the spec: what running one configured phase does (section
    4.1, steps 2 to 6). *)
Definition phaseBody (phaseSet : PhaseSet) (phase : OptPhase) (self : OptPhaseManager)
    (tree : ABT) : run (OptPhaseManager * ABT) :=
  match phase with
  | ConstEvalPre | PathFuse | PathLower | ConstEvalPost =>
      match structuralPass phase self tree with
      | Some (self', tree', _) => Done (self', tree')
      | None => Fatal
      end
  | MemoSubstitutionPhase =>
      match logicalRewrite phase true self tree with
      | Some st => Done st
      | None => Fatal
      end
  | MemoExplorationPhase =>
      match logicalRewrite phase (negb (hasPhase phaseSet MemoImplementationPhase)) self tree with
      | Some st => Done st
      | None => Fatal
      end
  | MemoImplementationPhase =>
      match physicalRewrite self tree with
      | Winner self' plan => Done (self', plan)
      | NoPlanFound self' tree' => NoPlan (self', tree')
      | SearchFatal => Fatal
      end
  end.

(** Modelled from the spec: "phases run in this fixed order, each
    conditionally skipped if absent from the configured phase set".  The
    second component lists the phases that ran, in the order they ran. *)
Fixpoint runPhases (phaseSet : PhaseSet) (phases : list OptPhase) (self : OptPhaseManager)
    (tree : ABT) : run (OptPhaseManager * ABT) * list OptPhase :=
  match phases with
  | [] => (Done (self, tree), [])
  | phase :: rest =>
      if hasPhase phaseSet phase then
        match phaseBody phaseSet phase self tree with
        | Done (self', tree') =>
            let '(r, ran) := runPhases phaseSet rest self' tree' in (r, phase :: ran)
        | NoPlan st => (NoPlan st, [phase])
        | Fatal => (Fatal, [phase])
        end
      else runPhases phaseSet rest self tree
  end.

(** One configured transport pass of the first fixpoint, or nothing. *)
Definition structuralStep (phaseSet : PhaseSet) (phase : OptPhase) (self : OptPhaseManager)
    (tree : ABT) : option (OptPhaseManager * ABT * bool) * list OptPhase :=
  if hasPhase phaseSet phase then (structuralPass phase self tree, [phase])
  else (Some (self, tree, false), []).

(** Modelled from the spec: step 1 of section 4.1, "ConstEvalPre and PathFuse
    run together to mutual fixpoint (alternate applying each until neither
    changes the tree, or a bounded iteration count is hit" and, section 9,
    exceeding the bound is "the fatal-class error". *)
Fixpoint runStructuralPhases (rounds : nat) (phaseSet : PhaseSet) (self : OptPhaseManager)
    (tree : ABT) : run (OptPhaseManager * ABT) * list OptPhase :=
  match rounds with
  | O => (Fatal, [])
  | S rounds' =>
      match structuralStep phaseSet ConstEvalPre self tree with
      | (None, ran1) => (Fatal, ran1)
      | (Some (self1, tree1, changed1), ran1) =>
          match structuralStep phaseSet PathFuse self1 tree1 with
          | (None, ran2) => (Fatal, (ran1 ++ ran2)%list)
          | (Some (self2, tree2, changed2), ran2) =>
              if changed1 || changed2 then
                let '(r, ran) := runStructuralPhases rounds' phaseSet self2 tree2 in
                (r, (ran1 ++ ran2 ++ ran)%list)
              else (Done (self2, tree2), (ran1 ++ ran2)%list)
          end
      end
  end.

Definition runPreTransport (self : OptPhaseManager) (tree : ABT)
    : run (OptPhaseManager * ABT) * list OptPhase :=
  if negb (hasPhase (_phaseSet self) ConstEvalPre) && negb (hasPhase (_phaseSet self) PathFuse)
  then (Done (self, tree), [])
  else runStructuralPhases (iterationLimit (_debugInfo self)) (_phaseSet self) self tree.

(** Sequencing: the rest runs on what a completed part left. *)
Definition andThen (first : run (OptPhaseManager * ABT) * list OptPhase)
    (rest : OptPhaseManager → ABT → run (OptPhaseManager * ABT) * list OptPhase)
    : run (OptPhaseManager * ABT) * list OptPhase :=
  match first with
  | (Done (self, tree), ran) =>
      let '(r, ran') := rest self tree in (r, (ran ++ ran')%list)
  | other => other
  end.

(** The pipeline up to the physical search: steps 1 to 3. *)
Definition runLogicalStages (self : OptPhaseManager) (tree : ABT)
    : run (OptPhaseManager * ABT) * list OptPhase :=
  andThen (runPreTransport self tree)
          (runPhases (_phaseSet self) [MemoSubstitutionPhase; MemoExplorationPhase]).

(** Modelled from the spec: the whole pipeline of section 4.1. *)
Definition runPipeline (self : OptPhaseManager) (tree : ABT)
    : run (OptPhaseManager * ABT) * list OptPhase :=
  andThen (runLogicalStages self tree)
          (runPhases (_phaseSet self) [MemoImplementationPhase; PathLower; ConstEvalPost]).

(** Modelled from the spec: [optimizeNoAssert] (declared at line 107)
    "returns false instead of aborting when the pipeline cannot find any
    physical plan"; a violated invariant aborts. It hands back the flag, the
    instance and the tree. *)
Definition optimizeNoAssert (self : OptPhaseManager) (input : ABT)
    : call (bool * OptPhaseManager * ABT) :=
  match (runPipeline self input).1 with
  | Done (self', tree') => Returned (true, self', tree')
  | NoPlan (self', tree') => Returned (false, self', tree')
  | Fatal => Aborted
  end.

(** Modelled from the spec: [optimize] (declared at line 101) "does not
    distinguish this case from the fatal class and aborts on either". *)
Definition optimize (self : OptPhaseManager) (input : ABT) : call (OptPhaseManager * ABT) :=
  match (runPipeline self input).1 with
  | Done st => Returned st
  | NoPlan _ => Aborted
  | Fatal => Aborted
  end.

(** The phases a run of the pipeline executed, in order. *)
Definition phasesRun (self : OptPhaseManager) (input : ABT) : list OptPhase :=
  (runPipeline self input).2.


(** The physical search is configured, was reached and found no plan for the
    root group, leaving [(self', tree')]. *)
Definition planningFails (self : OptPhaseManager) (input : ABT)
    (self' : OptPhaseManager) (tree' : ABT) : Prop :=
  ∃ self1 tree1,
    (runLogicalStages self input).1 = Done (self1, tree1)
    ∧ hasPhase (_phaseSet self) MemoImplementationPhase = true
    ∧ physicalRewrite self1 tree1 = NoPlanFound self' tree'.


End PhaseManager.





(** ** Results about the memo *)
Section MemoResults.
Context {LogicalProps PhysProps : Type}.
Context (deriveLogicalProps : ABT → list LogicalProps → LogicalProps).
Local Abbreviation Memo := (list (@Group LogicalProps PhysProps)).
Local Abbreviation holds e := (λ g : @Group LogicalProps PhysProps,
                             existsb (ABT_eqb e) (logicalNodes g) = true).

Lemma ABT_eqb_eq a b : ABT_eqb a b = true ↔ a = b.
Proof.
  revert b. induction a as [v | n | g | t c IH] using ABT_children_ind;
    intros [v' | n' | g' | t' c']; simpl; try (split; discriminate).
  - rewrite Z.eqb_eq. split; congruence.
  - rewrite String.eqb_eq. split; congruence.
  - rewrite Nat.eqb_eq. split; congruence.
  - rewrite andb_true_iff, String.eqb_eq.
    assert ((fix all_eqb (l l' : list ABT) : bool :=
               match l, l' with
               | [], [] => true
               | x :: k, y :: k' => ABT_eqb x y && all_eqb k k'
               | _, _ => false
               end) c c' = true ↔ c = c') as ->.
    { revert c'. induction IH as [| x k Hx _ IHk]; intros [| y k'];
        try (split; [discriminate | congruence]); [tauto |].
      rewrite andb_true_iff, Hx, IHk. split; [intros [-> ->]; reflexivity | ].
      intros [= -> ->]. auto. }
    split; [intros [-> ->]; reflexivity | intros [= -> ->]; auto].
Qed.

Lemma holds_elem_of e (l : list ABT) : existsb (ABT_eqb e) l = true ↔ e ∈ l.
Proof.
  induction l as [| x l IH]; simpl.
  - split; [discriminate | intros H; inversion H].
  - rewrite orb_true_iff, IH, ABT_eqb_eq, elem_of_cons. tauto.
Qed.

Lemma insert_found e (m : Memo) gid g :
  list_find (holds e) m = Some (gid, g) → insert deriveLogicalProps e m = (gid, m).
Proof. intros H. unfold insert. rewrite H. reflexivity. Qed.

Lemma insert_new e (m : Memo) :
  list_find (holds e) m = None →
  insert deriveLogicalProps e m
  = (length m,
     m ++ [{| logicalNodes := [e];
              logicalProps := deriveLogicalProps e (childGroupProps m e);
              winners := [] |}])%list.
Proof. intros H. unfold insert. rewrite H. reflexivity. Qed.

(** The id that [insert] returns names a group that holds the expression. *)
Lemma insert_holds e (m : Memo) :
  ∃ g, (insert deriveLogicalProps e m).2 !! (insert deriveLogicalProps e m).1 = Some g
       ∧ e ∈ logicalNodes g.
Proof.
  destruct (list_find (holds e) m) as [[gid g] |] eqn:Hfind.
  - rewrite (insert_found _ _ _ _ Hfind). simpl.
    apply list_find_Some in Hfind as (Hg & He & _).
    exists g. split; [assumption | apply holds_elem_of; assumption].
  - rewrite (insert_new _ _ Hfind). simpl. eexists. split.
    + rewrite lookup_app_r by lia. rewrite Nat.sub_diag. reflexivity.
    + simpl. left.
Qed.


Lemma insert_id_bound e (m : Memo) :
  ((insert deriveLogicalProps e m).1 < length (insert deriveLogicalProps e m).2)%nat.
Proof.
  destruct (insert_holds e m) as (g & Hg & _). eapply lookup_lt_Some, Hg.
Qed.






End MemoResults.




(** ** Results about the phase manager *)
Section PhaseManagerResults.
Context `{I : Interfaces}.
Context (structuralPass : OptPhase → OptPhaseManager → ABT → option (OptPhaseManager * ABT * bool)).
Context (logicalRewrite : OptPhase → bool → OptPhaseManager → ABT → option (OptPhaseManager * ABT)).
Context (physicalRewrite : OptPhaseManager → ABT → search).
Context (iterationLimit : DebugInfo → nat).

Local Abbreviation phaseBody' := (phaseBody structuralPass logicalRewrite physicalRewrite).
Local Abbreviation runPhases' := (runPhases structuralPass logicalRewrite physicalRewrite).
Local Abbreviation runStructuralPhases' := (runStructuralPhases structuralPass).
Local Abbreviation runPreTransport' := (runPreTransport structuralPass iterationLimit).
Local Abbreviation runLogicalStages' :=
  (runLogicalStages structuralPass logicalRewrite physicalRewrite iterationLimit).
Local Abbreviation runPipeline' :=
  (runPipeline structuralPass logicalRewrite physicalRewrite iterationLimit).
Local Abbreviation optimize' :=
  (optimize structuralPass logicalRewrite physicalRewrite iterationLimit).
Local Abbreviation optimizeNoAssert' :=
  (optimizeNoAssert structuralPass logicalRewrite physicalRewrite iterationLimit).

(** A phase that is not in a given list of phases. *)
Ltac absurd_elem H :=
  repeat (apply elem_of_cons in H as [H | H]; [discriminate H |]); inversion H.


(** *** Where a planning failure can come from *)

Lemma phaseBody_NoPlan phaseSet phase self tree st :
  phaseBody' phaseSet phase self tree = NoPlan st →
  phase = MemoImplementationPhase
  ∧ physicalRewrite self tree = NoPlanFound st.1 st.2.
Proof.
  destruct phase; simpl;
    try (destruct (structuralPass _ self tree) as [[[? ?] ?] |]; discriminate);
    try (destruct (logicalRewrite _ _ self tree); discriminate).
  destruct (physicalRewrite self tree); try discriminate.
  intros [= <-]. auto.
Qed.

Lemma runPhases_NoPlan phaseSet phases self tree st :
  (runPhases' phaseSet phases self tree).1 = NoPlan st →
  MemoImplementationPhase ∈ phases.
Proof.
  revert self tree. induction phases as [| phase rest IH]; intros self tree; simpl.
  - discriminate.
  - destruct (hasPhase phaseSet phase).
    + destruct (phaseBody' phaseSet phase self tree) as [[self' tree'] | st' |] eqn:Hbody.
      * destruct (runPhases' phaseSet rest self' tree') as [r ran] eqn:Hrest. simpl.
        intros ->. right. apply (IH self' tree'). rewrite Hrest. reflexivity.
      * intros _. apply phaseBody_NoPlan in Hbody as [-> _]. left.
      * discriminate.
    + intros H. right. exact (IH _ _ H).
Qed.

Lemma runStructuralPhases_NoPlan rounds phaseSet self tree st :
  (runStructuralPhases' rounds phaseSet self tree).1 ≠ NoPlan st.
Proof.
  revert self tree. induction rounds as [| rounds IH]; intros self tree; simpl.
  - discriminate.
  - destruct (structuralStep structuralPass phaseSet ConstEvalPre self tree)
      as [[[[self1 tree1] changed1] |] ran1]; [| discriminate].
    destruct (structuralStep structuralPass phaseSet PathFuse self1 tree1)
      as [[[[self2 tree2] changed2] |] ran2]; [| discriminate].
    destruct (changed1 || changed2); [| discriminate].
    specialize (IH self2 tree2).
    destruct (runStructuralPhases' rounds phaseSet self2 tree2) as [r ran]. exact IH.
Qed.

Lemma runPhases_cons phaseSet phase rest self tree :
  runPhases' phaseSet (phase :: rest) self tree
  = if hasPhase phaseSet phase then
      match phaseBody' phaseSet phase self tree with
      | Done (self', tree') =>
          let '(r, ran) := runPhases' phaseSet rest self' tree' in (r, phase :: ran)
      | NoPlan st => (NoPlan st, [phase])
      | Fatal => (Fatal, [phase])
      end
    else runPhases' phaseSet rest self tree.
Proof. reflexivity. Qed.

Lemma runLogicalStages_NoPlan self tree st :
  (runLogicalStages' self tree).1 ≠ NoPlan st.
Proof.
  unfold runLogicalStages, andThen.
  destruct (runPreTransport' self tree) as [[[self1 tree1] | st1 |] ran1] eqn:Hpre.
  - destruct (runPhases' (_phaseSet self) [MemoSubstitutionPhase; MemoExplorationPhase]
                self1 tree1) as [r ran] eqn:Hmid.
    cbn [fst]. intros ->.
    assert (MemoImplementationPhase ∈ [MemoSubstitutionPhase; MemoExplorationPhase]) as Hin.
    { eapply runPhases_NoPlan. rewrite Hmid. reflexivity. }
    absurd_elem Hin.
  - cbn [fst]. unfold runPreTransport in Hpre.
    destruct (_ && _); [discriminate |].
    pose proof (runStructuralPhases_NoPlan (iterationLimit (_debugInfo self))
                  (_phaseSet self) self tree st1) as Hno.
    rewrite Hpre in Hno. contradiction.
  - discriminate.
Qed.

(** The pipeline ends in a planning failure exactly when the physical search
    is configured, is reached and finds no plan. *)
Lemma runPipeline_NoPlan self input self' tree' :
  (runPipeline' self input).1 = NoPlan (self', tree')
  ↔ planningFails structuralPass logicalRewrite physicalRewrite iterationLimit
      self input self' tree'.
Proof.
  unfold planningFails, runPipeline, andThen.
  pose proof (runLogicalStages_NoPlan self input) as Hlogical.
  destruct (runLogicalStages' self input) as [[[self1 tree1] | st1 |] ran1].
  - rewrite runPhases_cons. cbn [fst phaseBody].
    destruct (hasPhase (_phaseSet self) MemoImplementationPhase) eqn:Himpl.
    + destruct (physicalRewrite self1 tree1) as [self2 plan | self2 tree2 |] eqn:Hsearch.
      * destruct (runPhases' (_phaseSet self) [PathLower; ConstEvalPost] self2 plan)
          as [r ran] eqn:Hpost. cbn [fst]. split.
        -- intros ->.
           assert (MemoImplementationPhase ∈ [PathLower; ConstEvalPost]) as Hin.
           { eapply runPhases_NoPlan. rewrite Hpost. reflexivity. }
           absurd_elem Hin.
        -- intros (s1 & t1 & [= <- <-] & _ & Hnone). congruence.
      * cbn [fst]. split.
        -- intros [= <- <-]. exists self1, tree1. auto.
        -- intros (s1 & t1 & [= <- <-] & _ & Hnone). congruence.
      * cbn [fst]. split; [discriminate |].
        intros (s1 & t1 & [= <- <-] & _ & Hnone). congruence.
    + destruct (runPhases' (_phaseSet self) [PathLower; ConstEvalPost] self1 tree1)
        as [r ran] eqn:Hpost. cbn [fst]. split.
      * intros ->.
        assert (MemoImplementationPhase ∈ [PathLower; ConstEvalPost]) as Hin.
        { eapply runPhases_NoPlan. rewrite Hpost. reflexivity. }
        absurd_elem Hin.
      * intros (s1 & t1 & _ & [=] & _).
  - exfalso. exact (Hlogical st1 eq_refl).
  - cbn [fst]. split; [discriminate | intros (s1 & t1 & [=] & _)].
Qed.

(** *** The order in which the phases run *)














(** C1: [optimize] and [optimizeNoAssert] leave the same instance and tree
    when the pipeline completes; [optimizeNoAssert] returns false exactly
    when the physical search is reached and finds no plan for the root group,
    and [optimize] aborts on those runs. *)
Theorem optimize_and_optimizeNoAssert :
  ∀ (self : OptPhaseManager) (input : ABT),
    (∀ self' tree',
       optimizeNoAssert' self input = Returned (true, self', tree')
       ↔ optimize' self input = Returned (self', tree'))
    ∧ (∀ self' tree',
         optimizeNoAssert' self input = Returned (false, self', tree')
         ↔ planningFails structuralPass logicalRewrite physicalRewrite iterationLimit
             self input self' tree')
    ∧ (∀ self' tree',
         optimizeNoAssert' self input = Returned (false, self', tree') →
         optimize' self input = Aborted)
    ∧ (optimizeNoAssert' self input = Aborted → optimize' self input = Aborted).
Proof.
  intros self input. split; [| split; [| split]].
  - intros self' tree'. unfold optimizeNoAssert, optimize.
    destruct (runPipeline' self input).1 as [[s t] | [s t] |];
      split; intros [=]; subst; reflexivity.
  - intros self' tree'. rewrite <- runPipeline_NoPlan. unfold optimizeNoAssert.
    destruct (runPipeline' self input).1 as [[s t] | [s t] |];
      split; intros [=]; subst; reflexivity.
  - intros self' tree'. unfold optimizeNoAssert, optimize.
    destruct (runPipeline' self input).1 as [[s t] | [s t] |]; intros [=]; reflexivity.
  - unfold optimizeNoAssert, optimize.
    destruct (runPipeline' self input).1 as [[s t] | [s t] |]; intros [=]; reflexivity.
Qed.


(** The move assignment operator is deleted as well (line 95). *)
Lemma OptPhaseManager_move_assignment_deleted :
  compiles (selected_assignment Rvalue) = false.
Proof. reflexivity. Qed.

(** C2: copy construction and copy assignment of an OptPhaseManager do not
    compile, move construction does, and the object it makes holds what the
    source held, member by member. *)
Theorem OptPhaseManager_movable_not_copyable :
  compiles (selected_constructor Lvalue) = false
  ∧ compiles (selected_assignment Lvalue) = false
  ∧ compiles (selected_constructor Rvalue) = true
  ∧ (∀ other : OptPhaseManager, OptPhaseManager_move other = other).
Proof.
  repeat (split; [reflexivity |]). intros []. reflexivity.
Qed.


End PhaseManagerResults.

(** An instance of the interfaces for examples: every type is the unit type. *)
#[local] Instance unit_interfaces : Interfaces := {|
  Metadata := unit;
  QueryHints := unit;
  DebugInfo := unit;
  CardinalityEstimator := unit;
  CostEstimator := unit;
  LogicalPropsInterface := unit;
  PathToIntervalFn := unit;
  ConstFoldFn := unit;
  MemoPhysicalNodeId := unit;
  NodeToGroupPropsMap := unit;
  RIDProjectionsMap := unit;
  LogicalProperties := unit;
  PhysProperties := unit;
  MemoPhysicalNodeId_default := ();
  NodeToGroupPropsMap_empty := ();
  RIDProjectionsMap_empty := ();
  LogicalPropsInterface_default := ();
|}.




(** ** Sample runs of the pipeline

    Transport passes that fold an equality of two constants at the root,
    logical rewrites that leave the tree alone, and a physical search that
    finds no plan for a required sort. *)
Definition sample_structuralPass (phase : OptPhase) (self : @OptPhaseManager unit_interfaces)
    (tree : ABT) : option (@OptPhaseManager unit_interfaces * ABT * bool) :=
  match phase, tree with
  | ConstEvalPre, Operator "Eq" [Constant a; Constant b] =>
      Some (self, Constant (if (a =? b)%Z then 1 else 0), true)
  | _, _ => Some (self, tree, false)
  end.

Definition sample_logicalRewrite (phase : OptPhase) (standalone : bool)
    (self : @OptPhaseManager unit_interfaces) (tree : ABT)
    : option (@OptPhaseManager unit_interfaces * ABT) :=
  Some (self, tree).

Definition sample_physicalRewrite (self : @OptPhaseManager unit_interfaces) (tree : ABT)
    : @search unit_interfaces :=
  match tree with
  | Operator "Sort" _ => NoPlanFound self tree
  | _ => Winner self (Operator "PhysicalScan" [tree])
  end.

Definition sample_manager (phaseSet : PhaseSet) : @OptPhaseManager unit_interfaces :=
  @OptPhaseManager_new unit_interfaces phaseSet 3%positive false ()
    None None None () () false () ().

Example sample_fixpoint_rounds :
  phasesRun sample_structuralPass sample_logicalRewrite sample_physicalRewrite (λ _, 10%nat)
    (sample_manager {[ConstEvalPre; PathFuse; PathLower]})
    (Operator "Eq" [Constant 1; Constant 1])
  = [ConstEvalPre; PathFuse; ConstEvalPre; PathFuse; PathLower].
Proof. vm_compute. reflexivity. Qed.

Example sample_fixpoint_result :
  optimize sample_structuralPass sample_logicalRewrite sample_physicalRewrite (λ _, 10%nat)
    (sample_manager {[ConstEvalPre; PathFuse; PathLower]})
    (Operator "Eq" [Constant 1; Constant 1])
  = Returned (sample_manager {[ConstEvalPre; PathFuse; PathLower]}, Constant 1).
Proof. vm_compute. reflexivity. Qed.

Example sample_no_plan :
  optimizeNoAssert sample_structuralPass sample_logicalRewrite sample_physicalRewrite
    (λ _, 10%nat) (sample_manager (list_to_set OPT_PHASE)) (Operator "Sort" [Var "a"])
  = Returned (false, sample_manager (list_to_set OPT_PHASE), Operator "Sort" [Var "a"])
  ∧ optimize sample_structuralPass sample_logicalRewrite sample_physicalRewrite
      (λ _, 10%nat) (sample_manager (list_to_set OPT_PHASE)) (Operator "Sort" [Var "a"])
    = Aborted
  ∧ phasesRun sample_structuralPass sample_logicalRewrite sample_physicalRewrite
      (λ _, 10%nat) (sample_manager (list_to_set OPT_PHASE)) (Operator "Sort" [Var "a"])
    = [ConstEvalPre; PathFuse; MemoSubstitutionPhase; MemoExplorationPhase;
       MemoImplementationPhase].
Proof. vm_compute. repeat split. Qed.

Example sample_iteration_limit :
  optimizeNoAssert sample_structuralPass sample_logicalRewrite sample_physicalRewrite
    (λ _, 1%nat) (sample_manager {[ConstEvalPre]}) (Operator "Eq" [Constant 1; Constant 2])
  = Aborted.
Proof. vm_compute. reflexivity. Qed.

End Optimizer.
